(** * platformio/telemetry.py: the dispatch engine

    A shallow embedding of [MPDataPusher], [MeasurementProtocol.send],
    [_finalize], [backup_reports] and [resend_backuped_reports].

    Conventions.
    - A report (a Python [dict] from parameter names to scalars) is a
      [gmap string value].
    - [time()] returns float seconds.  Floats only ever hold timestamps
      here, and the only arithmetic on them is [time() - qt],
      [(...) * 1000] and [time() - (qt / 1000)]; a float is represented
      exactly by its number of milliseconds, [VFloat ms].
    - The value returned by [time()] is an argument ([now], or a clock
      indexed by the position of the call in a loop).
    - Worker threads are interleaved at the granularity of the two halves
      of one iteration of [_worker]: [Queue.get] up to the append to
      [_failedque], and [_send_data] up to [task_done]. *)

From stdpp Require Import gmap strings list fin_maps.
From Stdlib Require Import ZArith Lia.

Local Open Scope string_scope.
Local Open Scope Z_scope.
Local Open Scope list_scope.

(** ** Reports *)

Inductive value :=
  | VInt (n : Z)
  | VFloat (ms : Z)
  | VStr (s : string).

#[global] Instance value_eq_dec : EqDecision value.
Proof. solve_decision. Defined.

Abbreviation Item := (gmap string value).

(** ** Exceptions and transport outcomes *)

Inductive exn :=
  | HTTPError (response : option Z)
  | ConnectionError
  | Timeout
  | KeyboardInterrupt
  | AttributeError
  | ValueError
  | TypeError
  | KeyError.

(** What [self._http_session.post(...)] does: it returns a response with
    a status code, or raises. *)
Inductive post_result :=
  | Response (status_code : Z)
  | Raises (e : exn).

(** [requests.Response.raise_for_status]: an [HTTPError] carrying the
    response for a status code in 400..599, nothing otherwise. *)
Definition raise_for_status (status_code : Z) : option exn :=
  if (400 <=? status_code) && (status_code <? 600)
  then Some (HTTPError (Some status_code))
  else None.

(** ** MPDataPusher *)

Abbreviation Thread := nat (only parsing).

Record MPDataPusher := mkPusher {
  _queue : list Item;          (* Queue.LifoQueue, top of the stack first *)
  unfinished_tasks : nat;      (* Queue.unfinished_tasks *)
  _failedque : list Item;      (* deque, left to right *)
  _http_session : list Item;   (* request bodies handed to post(), oldest first *)
  _http_offline : bool;
  _workers : list Thread;
  started : nat                (* threads created so far; the next thread's ident *)
}.

Definition MAX_WORKERS : nat := 5.

(** [MPDataPusher.__init__] *)
Definition init : MPDataPusher :=
  mkPusher [] 0 [] [] false [] 0.

Definition set_queue (q : list Item) (n : nat) (p : MPDataPusher) :=
  mkPusher q n (_failedque p) (_http_session p) (_http_offline p)
           (_workers p) (started p).
Definition set_failedque (f : list Item) (p : MPDataPusher) :=
  mkPusher (_queue p) (unfinished_tasks p) f (_http_session p)
           (_http_offline p) (_workers p) (started p).
Definition set_http_session (s : list Item) (p : MPDataPusher) :=
  mkPusher (_queue p) (unfinished_tasks p) (_failedque p) s
           (_http_offline p) (_workers p) (started p).
Definition set_http_offline (b : bool) (p : MPDataPusher) :=
  mkPusher (_queue p) (unfinished_tasks p) (_failedque p) (_http_session p)
           b (_workers p) (started p).
Definition set_workers (ws : list Thread) (n : nat) (p : MPDataPusher) :=
  mkPusher (_queue p) (unfinished_tasks p) (_failedque p) (_http_session p)
           (_http_offline p) ws n.

(** [if "qt" not in item: item['qt'] = time()] *)
Definition stamp (now : Z) (item : Item) : Item :=
  match item !! "qt" with
  | None => <["qt" := VFloat now]> item
  | Some _ => item
  end.

(** The loop at the head of [_tune_workers]:
    [for i, w in enumerate(self._workers): if not w.is_alive(): del self._workers[i]].
    The list iterator and [enumerate] both advance by one on every round,
    whether or not an entry was deleted. *)
Fixpoint prune_loop (is_alive : Thread → bool) (fuel i : nat)
    (ws : list Thread) : list Thread :=
  match fuel with
  | O => ws
  | S fuel' =>
      match ws !! i with
      | None => ws
      | Some w =>
          if is_alive w then prune_loop is_alive fuel' (S i) ws
          else prune_loop is_alive fuel' (S i) (delete i ws)
      end
  end.

Definition prune (is_alive : Thread → bool) (ws : list Thread) : list Thread :=
  prune_loop is_alive (length ws) 0 ws.

Definition _tune_workers (is_alive : Thread → bool) (p : MPDataPusher)
    : MPDataPusher :=
  let ws := prune is_alive (_workers p) in
  let need_nums := (length (_queue p) `min` MAX_WORKERS)%nat in
  let active_nums := length ws in
  if (need_nums <=? active_nums)%nat then set_workers ws (started p) p
  else
    let n := (need_nums - active_nums)%nat in
    set_workers (ws ++ seq (started p) n) (started p + n)%nat p.

(** [Queue.put]: push on the stack, one more unfinished task. *)
Definition queue_put (item : Item) (p : MPDataPusher) : MPDataPusher :=
  set_queue (item :: _queue p) (S (unfinished_tasks p)) p.

Definition push (is_alive : Thread → bool) (now : Z) (item : Item)
    (p : MPDataPusher) : MPDataPusher :=
  if _http_offline p then
    set_failedque (_failedque p ++ [stamp now item]) p
  else
    _tune_workers is_alive (queue_put item p).

Definition in_wait (p : MPDataPusher) : nat := unfinished_tasks p.

(** [get_items]: the failed records, then the queue drained with
    [get_nowait] until [Queue.Empty]; returns the list and the pusher. *)
Fixpoint drain (q : list Item) (items : list Item) : list Item :=
  match q with
  | [] => items
  | item :: q' => drain q' (items ++ [item])
  end.

Definition get_items (p : MPDataPusher) : list Item * MPDataPusher :=
  (drain (_queue p) (_failedque p), set_queue [] (unfinished_tasks p) p).

(** [_send_data]: [inl e] when exception [e] leaves the method. *)
Definition _send_data (data : Item) (o : post_result) (p : MPDataPusher)
    : (exn + bool) * MPDataPusher :=
  if _http_offline p then (inr false, p)
  else
    let p := set_http_session (_http_session p ++ [data]) p in
    let raised :=
      match o with
      | Response status_code => raise_for_status status_code
      | Raises e => Some e
      end in
    match raised with
    | None => (inr true, p)
    | Some (HTTPError None) =>
        (* e.response.status_code on a missing response *)
        (inl AttributeError, p)
    | Some (HTTPError (Some status_code)) =>
        if (400 >=? status_code) && (status_code <? 500) then (inr true, p)
        else (inr false, set_http_offline true p)
    | Some _ => (inr false, set_http_offline true p)
    end.

(** [deque.remove]: delete the first entry equal to [x]; [None] stands
    for the [ValueError] raised when there is none. *)
Fixpoint deque_remove (x : Item) (l : list Item) : option (list Item) :=
  match l with
  | [] => None
  | y :: l' =>
      if decide (y = x) then Some l'
      else cons y <$> deque_remove x l'
  end.

(** [Queue.task_done]; [None] stands for its [ValueError]. *)
Definition task_done (p : MPDataPusher) : option MPDataPusher :=
  match unfinished_tasks p with
  | O => None
  | S n => Some (set_queue (_queue p) n p)
  end.

(** One iteration of [_worker], first half: [item = self._queue.get()]
    up to [self._failedque.append(_item)].  [None]: the queue is empty
    and [get] blocks.  The thread keeps [(item, _item)]. *)
Definition worker_get (now : Z) (p : MPDataPusher)
    : option ((Item * Item) * MPDataPusher) :=
  match _queue p with
  | [] => None
  | item :: q =>
      let _item := stamp now item in
      Some ((item, _item),
            set_failedque (_failedque p ++ [_item])
              (set_queue q (unfinished_tasks p) p))
  end.

(** Second half of the [try] body: [if self._send_data(item): ...remove]
    then [task_done].  The first component is the exception that reaches
    the [except] clause, if any. *)
Definition worker_try (loc : Item * Item) (o : post_result) (p : MPDataPusher)
    : option exn * MPDataPusher :=
  let '(item, _item) := loc in
  match _send_data item o p with
  | (inl e, p1) => (Some e, p1)
  | (inr true, p1) =>
      match deque_remove _item (_failedque p1) with
      | None => (Some ValueError, p1)
      | Some f =>
          let p2 := set_failedque f p1 in
          match task_done p2 with
          | None => (Some ValueError, p2)
          | Some p3 => (None, p3)
          end
      end
  | (inr false, p1) =>
      match task_done p1 with
      | None => (Some ValueError, p1)
      | Some p2 => (None, p2)
      end
  end.

(** [except: pass]: whatever was raised is dropped and the loop goes on.
    The result pairs the exception that leaves the iteration (there is
    none to return) with the pusher. *)
Definition worker_send (loc : Item * Item) (o : post_result) (p : MPDataPusher)
    : option exn * MPDataPusher :=
  match worker_try loc o p with
  | (Some _, p') => (None, p')
  | (None, p') => (None, p')
  end.

(** ** The [app] module: settings and the persistent state

    [app.get_state_item] and [app.set_state_item] read and write one
    entry of the state file.  The entry "telemetry" is a dict whose key
    "backup" holds the list of saved reports. *)

Abbreviation StateItem := (gmap string (list Item)).

Inductive app_call :=
  | GetStateItem (name : string)
  | SetStateItem (name : string).

Record App := mkApp {
  state : gmap string StateItem;   (* the state file *)
  enable_telemetry : bool;         (* app.get_setting("enable_telemetry") *)
  calls : list app_call            (* accesses to the state file, oldest first *)
}.

(** [app.get_state_item(name, {})] *)
Definition get_state_item (name : string) (a : App) : StateItem * App :=
  (default ∅ (state a !! name),
   mkApp (state a) (enable_telemetry a) (calls a ++ [GetStateItem name])).

Definition set_state_item (name : string) (v : StateItem) (a : App) : App :=
  mkApp (<[name := v]> (state a)) (enable_telemetry a)
        (calls a ++ [SetStateItem name]).

(** The saved reports, [[]] when there are none. *)
Definition backup (a : App) : list Item :=
  default [] (default ∅ (state a !! "telemetry") !! "backup").

(** ** The process: the pusher singleton, its worker threads, the app *)

Record Process := mkProcess {
  pusher : MPDataPusher;
  locals : gmap Thread (Item * Item);  (* [item, _item] of a worker between its two halves *)
  app : App
}.

Definition with_pusher (p : MPDataPusher) (pr : Process) : Process :=
  mkProcess p (locals pr) (app pr).
Definition with_app (a : App) (pr : Process) : Process :=
  mkProcess (pusher pr) (locals pr) a.

(** A fresh process. *)
Definition boot (a : App) : Process := mkProcess init ∅ a.

(** What a worker thread does when it is scheduled. *)
Inductive event :=
  | Get (w : Thread) (now : Z)
  | Send (w : Thread) (o : post_result).

Definition step (e : event) (pr : Process) : Process :=
  match e with
  | Get w now =>
      if (w <? started (pusher pr))%nat then
        match locals pr !! w with
        | Some _ => pr
        | None =>
            match worker_get now (pusher pr) with
            | None => pr
            | Some (loc, p') => mkProcess p' (<[w := loc]> (locals pr)) (app pr)
            end
        end
      else pr
  | Send w o =>
      match locals pr !! w with
      | None => pr
      | Some loc =>
          mkProcess (worker_send loc o (pusher pr)).2 (delete w (locals pr))
                    (app pr)
      end
  end.

Definition run (es : list event) (pr : Process) : Process :=
  foldl (λ pr e, step e pr) pr es.

(** [_worker] is [while True] around a [try] whose [except] catches
    everything, so a started thread stays alive. *)
Definition running : Thread → bool := λ _, true.

(** ** MeasurementProtocol *)

Definition PARAMS_MAP : gmap string string :=
  list_to_map [("screen_name", "cd"); ("event_category", "ec");
               ("event_action", "ea"); ("event_label", "el");
               ("event_value", "ev")].

(** [MeasurementProtocol.__setitem__] *)
Definition setitem (name : string) (v : value) (params : Item) : Item :=
  <[default name (PARAMS_MAP !! name) := v]> params.

(** [MeasurementProtocol.__getitem__] *)
Definition getitem (name : string) (params : Item) : option value :=
  params !! default name (PARAMS_MAP !! name).

(** [MeasurementProtocol.send], on an instance whose [_params] is
    [params]. *)
Definition send (is_alive : Thread → bool) (now : Z) (hittype : value)
    (params : Item) (pr : Process) : Process :=
  if negb (enable_telemetry (app pr)) then pr
  else
    let params := setitem "t" hittype params in
    let params :=
      match getitem "qt" params with
      | Some (VFloat qt) => setitem "qt" (VInt (now - qt)) params
      | _ => params
      end in
    with_pusher (push is_alive now params (pusher pr)) pr.

(** ** backup_reports *)

Definition STATIC : list string :=
  ["v"; "tid"; "cid"; "cd1"; "cd2"; "sr"; "an"].

Definition skip_static (params : Item) : Item :=
  filter (λ kv, kv.1 ∉ STATIC) params.

(** "store time in UNIX format"; [qt / 1000] is Python 2 integer
    division, and fails on a string. *)
Definition store_time (now : Z) (params : Item) : exn + Item :=
  match params !! "qt" with
  | None => inr (<["qt" := VFloat now]> params)
  | Some (VFloat _) => inr params
  | Some (VInt qt) => inr (<["qt" := VFloat (now - (qt `div` 1000) * 1000)]> params)
  | Some (VStr _) => inl TypeError
  end.

Definition KEEP_MAX_REPORTS : nat := 100.

(** [l[n * -1:]] for [n > 0] *)
Definition keep_last (n : nat) (l : list Item) : list Item :=
  drop (length l - n) l.

Fixpoint backup_loop (clock : nat → Z) (i : nat) (items : list Item)
    (saved : list Item) : exn + list Item :=
  match items with
  | [] => inr saved
  | params :: rest =>
      match store_time (clock i) (skip_static params) with
      | inl e => inl e
      | inr params' => backup_loop clock (S i) rest (saved ++ [params'])
      end
  end.

Definition backup_reports (clock : nat → Z) (items : list Item) (a : App)
    : option exn * App :=
  match items with
  | [] => (None, a)
  | _ =>
      let '(tm, a) := get_state_item "telemetry" a in
      let tm :=
        match tm !! "backup" with
        | None => <["backup" := []]> tm
        | Some _ => tm
        end in
      match backup_loop clock 0 items (default [] (tm !! "backup")) with
      | inl e => (Some e, a)
      | inr saved =>
          (None,
           set_state_item "telemetry"
             (<["backup" := keep_last KEEP_MAX_REPORTS saved]> tm) a)
      end
  end.

(** ** resend_backuped_reports

    [fresh] is the [_params] of a newly constructed
    [MeasurementProtocol]: what [__init__] fills in from the terminal,
    the environment and the app session.  [clock i] is [time()] while
    report [i] is resent, and [sched i] is what the worker threads do
    after report [i] was handed to [send]. *)

(** [for key, value in report.items(): mp[key] = value] *)
Definition load_report (fresh report : Item) : Item :=
  foldl (λ params kv, setitem kv.1 kv.2 params) fresh (map_to_list report).

Fixpoint resend_loop (is_alive : Thread → bool) (fresh : Item)
    (clock : nat → Z) (sched : nat → list event) (i : nat)
    (reports : list Item) (pr : Process) : option exn * Process :=
  match reports with
  | [] => (None, pr)
  | report :: rest =>
      let mp := load_report fresh report in
      match report !! "t" with
      | None => (Some KeyError, pr)
      | Some t =>
          resend_loop is_alive fresh clock sched (S i) rest
            (run (sched i) (send is_alive (clock i) t mp pr))
      end
  end.

(** The result is [inl e] when [e] is raised, [inr (Some false)] for
    [return False] and [inr None] when the end of the body is reached. *)
Definition resend_backuped_reports (is_alive : Thread → bool) (fresh : Item)
    (clock : nat → Z) (sched : nat → list event) (pr : Process)
    : (exn + option bool) * Process :=
  let '(tm, a) := get_state_item "telemetry" (app pr) in
  let pr := with_app a pr in
  match tm !! "backup" with
  | None | Some [] => (inr (Some false), pr)
  | Some reports =>
      match resend_loop is_alive fresh clock sched 0 reports pr with
      | (Some e, pr') => (inl e, pr')
      | (None, pr') =>
          (inr None,
           with_app (set_state_item "telemetry" (<["backup" := []]> tm)
                                    (app pr')) pr')
      end
  end.

(** ** _finalize *)

(** What happens while the main thread is in [sleep(0.2)]: the workers
    run, or a [KeyboardInterrupt] is delivered. *)
Inductive nap :=
  | Slept (es : list event)
  | Interrupted.

Definition timeout : Z := 1000.

(** The [while elapsed < timeout] loop; [naps k] is the [k]-th sleep.
    The result is [None] when the fuel runs out, and otherwise the
    exception raised in the loop, if any, the number of sleeps entered,
    and the process. *)
Fixpoint wait_loop (fuel : nat) (naps : nat → nap) (k : nat) (elapsed : Z)
    (pr : Process) : option (option exn * nat * Process) :=
  match fuel with
  | O => None
  | S fuel' =>
      if elapsed <? timeout then
        match in_wait (pusher pr) with
        | O => Some (None, k, pr)
        | S _ =>
            match naps k with
            | Interrupted => Some (Some KeyboardInterrupt, S k, pr)
            | Slept es =>
                wait_loop fuel' naps (S k) (elapsed + 200) (run es pr)
            end
        end
      else Some (None, k, pr)
  end.

(** The body of [_finalize]'s [try]: the wait, then
    [backup_reports(MPDataPusher().get_items())]. *)
Definition finalize_try (fuel : nat) (naps : nat → nap) (clock : nat → Z)
    (pr : Process) : option (option exn * nat * Process) :=
  match wait_loop fuel naps 0 0 pr with
  | None => None
  | Some (Some e, k, pr') => Some (Some e, k, pr')
  | Some (None, k, pr') =>
      let '(items, p') := get_items (pusher pr') in
      let '(e, a') := backup_reports clock items (app pr') in
      Some (e, k, mkProcess p' (locals pr') a')
  end.

(** [except KeyboardInterrupt: pass]; any other exception leaves
    [_finalize]. *)
Definition _finalize (fuel : nat) (naps : nat → nap) (clock : nat → Z)
    (pr : Process) : option (option exn * nat * Process) :=
  match finalize_try fuel naps clock pr with
  | None => None
  | Some (Some KeyboardInterrupt, k, pr') => Some (None, k, pr')
  | Some r => Some r
  end.

(** ** Everything the module does to a process

    The callers of the module reach the pusher only through
    [MeasurementProtocol.send] ([on_command], [on_event], [on_exception]
    end in it), [resend_backuped_reports] and the exit hook; in between,
    worker threads are scheduled. *)

Inductive call :=
  | Work (e : event)
  | CallSend (is_alive : Thread → bool) (now : Z) (hittype : value)
             (params : Item)
  | CallResend (is_alive : Thread → bool) (fresh : Item) (clock : nat → Z)
               (sched : nat → list event)
  | CallFinalize (naps : nat → nap) (clock : nat → Z).

(** Six rounds of fuel are what [_finalize]'s loop can use:
    [elapsed] is 0, 200, ..., 1000. *)
Definition finalize_fuel : nat := 6.

Definition perform (c : call) (pr : Process) : Process :=
  match c with
  | Work e => step e pr
  | CallSend is_alive now hittype params => send is_alive now hittype params pr
  | CallResend is_alive fresh clock sched =>
      (resend_backuped_reports is_alive fresh clock sched pr).2
  | CallFinalize naps clock =>
      match _finalize finalize_fuel naps clock pr with
      | Some (_, _, pr') => pr'
      | None => pr
      end
  end.

Definition perform_all (cs : list call) (pr : Process) : Process :=
  foldl (λ pr c, perform c pr) pr cs.

(** ** Vocabulary of the statements *)




(** The "qt" entry, when present, is a number: [backup_reports] can
    divide it. *)
Definition qt_ok (params : Item) : Prop :=
  match params !! "qt" with
  | Some (VStr _) => False
  | _ => True
  end.

#[global] Instance qt_ok_dec params : Decision (qt_ok params).
Proof. unfold qt_ok. destruct (params !! "qt") as [[]|]; apply _. Defined.

(** The form in which [backup_reports] saves a report at time [now]. *)
Definition saved_form (now : Z) (params : Item) : Item :=
  match store_time now (skip_static params) with
  | inr params' => params'
  | inl _ => skip_static params
  end.

(** The saved forms of [items], the first one handled at [clock i]. *)
Fixpoint saved_forms (clock : nat → Z) (i : nat) (items : list Item)
    : list Item :=
  match items with
  | [] => []
  | params :: rest => saved_form (clock i) params :: saved_forms clock (S i) rest
  end.

(** No key of the report is one of the long names that [__setitem__]
    renames; every report built through [MeasurementProtocol] is so. *)
Definition short_keys (report : Item) : Prop :=
  Forall (λ kv : string * string, report !! kv.1 = None)
         (map_to_list PARAMS_MAP).

(** A report as [backup_reports] saves them: it has its hit type, its
    keys are short, its queue time is a number. *)
Definition well_formed (report : Item) : Prop :=
  is_Some (report !! "t") ∧ short_keys report ∧ qt_ok report.

#[global] Instance well_formed_dec report : Decision (well_formed report).
Proof. unfold well_formed, short_keys. apply _. Defined.







(** What the pruning loop of [_tune_workers] comes to: a dead entry is
    deleted, and the entry that follows it is passed over unseen. *)
Fixpoint prune_skip (is_alive : Thread → bool) (ws : list Thread)
    : list Thread :=
  match ws with
  | [] => []
  | w :: rest =>
      if is_alive w then w :: prune_skip is_alive rest
      else
        match rest with
        | [] => []
        | w' :: rest' => w' :: prune_skip is_alive rest'
        end
  end.

(** What the workers do during sleeps [k], ..., [k + n - 1]. *)
Definition nap_events (n : nap) : list event :=
  match n with
  | Slept es => es
  | Interrupted => []
  end.

Definition slept (naps : nat → nap) (k n : nat) : list event :=
  concat ((λ j, nap_events (naps j)) <$> seq k n).

(** What the workers do while reports [i], ..., [i + n - 1] are resent. *)
Definition scheduled (sched : nat → list event) (i n : nat) : list event :=
  concat (sched <$> seq i n).


(** ** The rest of [TelemetryBase] and [MeasurementProtocol] *)

(** [TelemetryBase.__delitem__]; [MeasurementProtocol] does not override
    it, so the name is not looked up in [PARAMS_MAP]. *)
Definition delitem (name : string) (params : Item) : Item :=
  delete name params.

(** [_first_arg_from_list] of [_prefill_screen_name] *)
Fixpoint _first_arg_from_list (args_ list_ : list string) : option string :=
  match args_ with
  | [] => None
  | _arg :: rest =>
      if decide (_arg ∈ list_) then Some _arg
      else _first_arg_from_list rest list_
  end.

(** [if sub_cmd:] on the result of [_first_arg_from_list] *)
Definition found (sub_cmd : option string) : option string :=
  match sub_cmd with
  | Some "" => None
  | _ => sub_cmd
  end.

Definition two_word_commands : list string :=
  ["platform"; "platforms"; "serialports"; "device"; "settings"; "account"].
Definition lib_subcmds : list string :=
  ["builtin"; "install"; "list"; "register"; "search"; "show"; "stats";
   "uninstall"; "update"].
Definition remote_subcmds : list string := ["agent"; "device"; "run"; "test"].
Definition remote2_subcmds : list string := ["list"; "start"; "monitor"].

(** The [args] of [_prefill_screen_name]: the command line without the
    words that start with a dash, in lower case.  [lower] is
    [str.lower]. *)
Definition screen_args (lower : string → string) (ctx_args : list string)
    : list string :=
  lower <$> filter (λ s, String.prefix "-" s = false) ctx_args.

(** The [cmd_path] that [_prefill_screen_name] builds from non-empty
    [args]. *)
Definition cmd_path_of (args : list string) : list string :=
  let arg0 := default "" (head args) in
  let cmd_path := take 1 args in
  let cmd_path :=
    if decide (arg0 ∈ two_word_commands) then take 2 args else cmd_path in
  if decide (arg0 = "lib" ∧ (1 < length args)%nat) then
    match found (_first_arg_from_list (drop 1 args) lib_subcmds) with
    | Some sub_cmd => cmd_path ++ [sub_cmd]
    | None => cmd_path
    end
  else if decide (arg0 = "remote" ∧ (1 < length args)%nat) then
    match found (_first_arg_from_list (drop 1 args) remote_subcmds) with
    | Some sub_cmd =>
        let cmd_path := cmd_path ++ [sub_cmd] in
        if decide ((2 < length args)%nat ∧ sub_cmd ∈ ["agent"; "device"]) then
          match found (_first_arg_from_list (drop 2 args) remote2_subcmds) with
          | Some sub_cmd => cmd_path ++ [sub_cmd]
          | None => cmd_path
          end
        else cmd_path
    | None => cmd_path
    end
  else cmd_path.

(** [_prefill_screen_name]; [command_ctx] is the argument list of
    [app.get_session_var("command_ctx")], [None] when there is no
    context, and [title] is [str.title]. *)
Definition _prefill_screen_name (lower title : string → string)
    (command_ctx : option (list string)) (params : Item) : Item :=
  match command_ctx with
  | None => params
  | Some ctx_args =>
      match screen_args lower ctx_args with
      | [] => params
      | args =>
          setitem "screen_name"
            (VStr (String.concat " " (title <$> cmd_path_of args))) params
      end
  end.

(** ** on_event *)



(** ** More vocabulary *)

(** No two neighbours on the roster are both dead. *)
Definition no_adjacent_dead (is_alive : Thread → bool) (ws : list Thread)
    : Prop :=
  ∀ i w1 w2, ws !! i = Some w1 → ws !! S i = Some w2 →
    is_alive w1 = true ∨ is_alive w2 = true.




(** [a'] differs from [a] at most in the "backup" entry of the
    "telemetry" state item and in the record of accesses. *)
Definition same_elsewhere (a a' : App) : Prop :=
  enable_telemetry a' = enable_telemetry a ∧
  (∀ name, name ≠ "telemetry" → state a' !! name = state a !! name) ∧
  (∀ key, key ≠ "backup" →
     default ∅ (state a' !! "telemetry") !! key
       = default ∅ (state a !! "telemetry") !! key).

(** The report has a float queue time and none of the static options. *)
Definition normalized (report : Item) : Prop :=
  (∃ ms, report !! "qt" = Some (VFloat ms)) ∧
  Forall (λ key, report !! key = None) STATIC.

(** ** Sample data *)

Definition report_of (hittype : string) (n : Z) : Item :=
  {[ "t" := VStr hittype; "ev" := VInt n ]}.

Definition A : Item := report_of "A" 1.
Definition B : Item := report_of "B" 2.
Definition C : Item := report_of "C" 3.

(** An app with telemetry on or off and [reports] saved in the state. *)
Definition app_with (enabled : bool) (reports : list Item) : App :=
  mkApp {[ "telemetry" := {[ "backup" := reports ]} ]} enabled [].

Definition noon : nat → Z := λ _, 43200000.
Definition idle : nat → list event := λ _, [].

(** * Properties *)

(** ** Records, the queue and the failed list *)






Lemma deque_remove_perm x l l' : deque_remove x l = Some l' → l ≡ₚ x :: l'.
Proof.
  revert l'. induction l as [|y l IH]; intros l'; simpl; [done|].
  case_decide as Hy.
  - intros [= <-]. by subst.
  - destruct (deque_remove x l) as [l0|]; simpl; [|done].
    intros [= <-]. rewrite (IH l0 eq_refl). apply Permutation_swap.
Qed.


(** ** C10 *)

(** C10. [backup_reports] called with no items returns at once: the
    result is the app it was given, with the same state file and the
    same record of accesses to it (the state is neither read nor
    written). *)
Theorem backup_reports_nothing clock (a : App) :
  backup_reports clock [] a = (None, a).
Proof. reflexivity. Qed.

(** ** _send_data *)

Lemma send_data_offline data o p :
  _http_offline p = true → _send_data data o p = (inr false, p).
Proof. unfold _send_data. by intros ->. Qed.


Lemma send_data_frame data o p :
  let p' := (_send_data data o p).2 in
  _queue p' = _queue p ∧ unfinished_tasks p' = unfinished_tasks p ∧
  _failedque p' = _failedque p ∧ _workers p' = _workers p ∧
  started p' = started p.
Proof.
  unfold _send_data. destruct (_http_offline p); [done|].
  destruct o as [s|[[s|]| | | | | | |]]; simpl;
    try (unfold raise_for_status; destruct (_ && _));
    try destruct (_ && _); done.
Qed.

Lemma send_data_latch data o p :
  _http_offline p = true → _http_offline (_send_data data o p).2 = true.
Proof. intros H. by rewrite send_data_offline. Qed.



(** ** C2 *)

(** C2 (the code at status 404). A worker that sends [A] and gets a
    response with status 404: [_send_data] returns [False] and sets the
    offline flag, the clone of [A] stays in the failed list, and the exit
    hook saves it.  Status 400 is the only status of the 4xx range for
    which [_send_data] returns [True], the clone is removed and nothing
    is saved. *)
Theorem status_404_is_kept_and_trips_offline :
  let pr := send running 0 (VStr "A") A (boot (app_with true [])) in
  let sent s := run [Get 0%nat 7; Send 0%nat (Response s)] pr in
  let saved s := _finalize finalize_fuel (λ _, Slept []) noon (sent s) in
  (_send_data A (Response 404) (pusher pr)).1 = inr false ∧
  _http_offline (pusher (sent 404)) = true ∧
  _failedque (pusher (sent 404)) = [stamp 7 A] ∧
  (∃ k pr', saved 404 = Some (None, k, pr') ∧ backup (app pr') = [stamp 7 A]) ∧
  (_send_data A (Response 400) (pusher pr)).1 = inr true ∧
  _http_offline (pusher (sent 400)) = false ∧
  _failedque (pusher (sent 400)) = [] ∧
  (∃ k pr', saved 400 = Some (None, k, pr') ∧ backup (app pr') = []).
Proof.
  cbv zeta. repeat split; try (vm_compute; reflexivity).
  - eexists _, _. split; vm_compute; reflexivity.
  - eexists _, _. split; vm_compute; reflexivity.
Qed.

(** ** The worker *)

Lemma worker_get_spec now item q p :
  _queue p = item :: q →
  worker_get now p =
    Some ((item, stamp now item),
          set_failedque (_failedque p ++ [stamp now item])
            (set_queue q (unfinished_tasks p) p)).
Proof. unfold worker_get. by intros ->. Qed.

Lemma worker_get_empty now p : _queue p = [] → worker_get now p = None.
Proof. unfold worker_get. by intros ->. Qed.


Lemma worker_send_state loc o p :
  (worker_send loc o p).2 = (worker_try loc o p).2.
Proof. unfold worker_send. by destruct (worker_try loc o p) as [[e|] p']. Qed.

Lemma task_done_frame p p' :
  task_done p = Some p' →
  _queue p' = _queue p ∧ _failedque p' = _failedque p ∧
  _http_session p' = _http_session p ∧ _http_offline p' = _http_offline p ∧
  _workers p' = _workers p ∧ started p' = started p.
Proof.
  unfold task_done. destruct (unfinished_tasks p); [done|].
  by intros [= <-].
Qed.

(** What one second half does to the failed list: the clone goes when
    the send came back with [True], nothing changes otherwise. *)
Lemma worker_try_failedque item _item o p :
  _failedque (worker_try (item, _item) o p).2 =
    match (_send_data item o p).1 with
    | inr true => default (_failedque p) (deque_remove _item (_failedque p))
    | _ => _failedque p
    end.
Proof.
  unfold worker_try.
  pose proof (send_data_frame item o p) as (_ & _ & Hf & _).
  destruct (_send_data item o p) as [[e|[]] p1]; simpl in *; [done| |].
  - rewrite Hf. destruct (deque_remove _item (_failedque p)) as [f|]; simpl;
      [|done].
    destruct (task_done (set_failedque f p1)) as [p3|] eqn:E; simpl; [|done].
    by apply task_done_frame in E as (_ & -> & _).
  - destruct (task_done p1) as [p2|] eqn:E; simpl; [|done].
    by apply task_done_frame in E as (_ & -> & _).
Qed.

Lemma worker_try_raises item _item o p e :
  (worker_try (item, _item) o p).1 = Some e →
  _failedque (worker_try (item, _item) o p).2 = _failedque p ∨
  (_send_data item o p).1 = inr true ∧ _item ∈ _failedque p ∧
    unfinished_tasks p = O.
Proof.
  intros He. rewrite worker_try_failedque. revert He. unfold worker_try.
  pose proof (send_data_frame item o p) as (_ & Hu & Hf & _).
  destruct (_send_data item o p) as [[e'|[]] p1]; simpl in *; auto.
  rewrite Hf.
  destruct (deque_remove _item (_failedque p)) as [f|] eqn:Hr; simpl; auto.
  unfold task_done. simpl. rewrite Hu.
  destruct (unfinished_tasks p); [|done]. intros _. right.
  split; [done|]. split; [|done].
  apply deque_remove_perm in Hr. rewrite Hr. apply elem_of_cons; auto.
Qed.

(** ** C5 *)



(** ** The queue is a stack *)

Lemma tune_workers_frame is_alive p :
  let p' := _tune_workers is_alive p in
  _queue p' = _queue p ∧ unfinished_tasks p' = unfinished_tasks p ∧
  _failedque p' = _failedque p ∧ _http_session p' = _http_session p ∧
  _http_offline p' = _http_offline p.
Proof. unfold _tune_workers. by destruct (_ <=? _)%nat. Qed.

Lemma push_online is_alive now item p :
  _http_offline p = false →
  let p' := push is_alive now item p in
  _queue p' = item :: _queue p ∧
  unfinished_tasks p' = S (unfinished_tasks p) ∧
  _failedque p' = _failedque p ∧ _http_session p' = _http_session p ∧
  _http_offline p' = false.
Proof.
  intros Hup. unfold push. rewrite Hup.
  pose proof (tune_workers_frame is_alive (queue_put item p))
    as (-> & -> & -> & -> & ->). done.
Qed.

Lemma worker_try_frame loc o p :
  let p' := (worker_try loc o p).2 in
  _queue p' = _queue p ∧ _workers p' = _workers p ∧ started p' = started p.
Proof.
  destruct loc as [item _item]. unfold worker_try.
  pose proof (send_data_frame item o p) as (Hq & _ & _ & Hw & Hs).
  destruct (_send_data item o p) as [[e|[]] p1]; simpl in *; [done| |].
  - destruct (deque_remove _ _) as [f|]; simpl; [|done].
    destruct (task_done _) as [p3|] eqn:E; simpl; [|done].
    by apply task_done_frame in E as (-> & _ & _ & _ & -> & ->).
  - destruct (task_done p1) as [p2|] eqn:E; simpl; [|done].
    by apply task_done_frame in E as (-> & _ & _ & _ & -> & ->).
Qed.

Lemma worker_send_frame loc o p :
  let p' := (worker_send loc o p).2 in
  _queue p' = _queue p ∧ _workers p' = _workers p ∧ started p' = started p.
Proof. cbv zeta. rewrite worker_send_state. apply worker_try_frame. Qed.

(** Records pushed while the network is up sit on the queue in reverse
    order of arrival. *)
Lemma pushes_stack is_alive now items p :
  _http_offline p = false →
  let p' := foldl (λ p item, push is_alive now item p) p items in
  _queue p' = rev items ++ _queue p ∧ _http_offline p' = false.
Proof.
  revert p. induction items as [|x items IH]; intros p Hup; simpl; [done|].
  pose proof (push_online is_alive now x p Hup) as (Hq & _ & _ & _ & Hoff).
  destruct (IH _ Hoff) as [-> ->]. rewrite Hq.
  by rewrite <- app_assoc.
Qed.

(** ** C8 *)

(** C8. The queue is last-in-first-out.  Records [a], [b], [c] are
    pushed in that order on a fresh pusher and nothing else happens;
    then one worker, iteration after iteration and whatever the
    transport answers, pops [c], then [b], then [a], and the queue is
    empty. *)
Theorem lifo_pop_order is_alive (a b c : Item) t0 t1 t2 t3 o1 o2 :
  let p := push is_alive t0 c (push is_alive t0 b (push is_alive t0 a init)) in
  ∃ p1 p2 p3,
    worker_get t1 p = Some ((c, stamp t1 c), p1) ∧
    worker_get t2 (worker_send (c, stamp t1 c) o1 p1).2
      = Some ((b, stamp t2 b), p2) ∧
    worker_get t3 (worker_send (b, stamp t2 b) o2 p2).2
      = Some ((a, stamp t3 a), p3) ∧
    _queue p3 = [].
Proof.
  intros p.
  pose proof (pushes_stack is_alive t0 [a; b; c] init eq_refl) as [Hq _].
  simpl in Hq. fold p in Hq.
  eexists _, _, _. split; [by apply (worker_get_spec _ _ _ _ Hq)|].
  split.
  { apply worker_get_spec.
    by pose proof (worker_send_frame (c, stamp t1 c) o1
      (set_failedque (_failedque p ++ [stamp t1 c])
         (set_queue [b; a] (unfinished_tasks p) p))) as (-> & _). }
  split.
  - apply worker_get_spec.
    match goal with |- _queue (worker_send ?l ?o ?q).2 = _ =>
      by pose proof (worker_send_frame l o q) as (-> & _) end.
  - reflexivity.
Qed.

(** ** Invariants of the pusher

    A property of the pusher that [push], the two halves of a worker
    iteration and [get_items] preserve holds for the rest of the
    process. *)

Section PusherInvariant.
Variable Inv : MPDataPusher → Prop.
Hypothesis Inv_push :
  ∀ is_alive now item p, Inv p → Inv (push is_alive now item p).
Hypothesis Inv_get :
  ∀ now p loc p', Inv p → worker_get now p = Some (loc, p') → Inv p'.
Hypothesis Inv_send :
  ∀ loc o p, Inv p → Inv (worker_send loc o p).2.
Hypothesis Inv_items :
  ∀ p, Inv p → Inv (get_items p).2.

Lemma step_invariant e pr : Inv (pusher pr) → Inv (pusher (step e pr)).
Proof.
  intros H. destruct e as [w now|w o]; simpl.
  - destruct (_ <? _)%nat; [|done]. destruct (locals pr !! w); [done|].
    destruct (worker_get now (pusher pr)) as [[loc p']|] eqn:E; [|done].
    simpl. eauto.
  - destruct (locals pr !! w); [|done]. simpl. eauto.
Qed.

Lemma run_invariant es pr : Inv (pusher pr) → Inv (pusher (run es pr)).
Proof.
  revert pr. induction es as [|e es IH]; intros pr H; simpl; [done|].
  apply IH. by apply step_invariant.
Qed.

Lemma send_invariant is_alive now hittype params pr :
  Inv (pusher pr) → Inv (pusher (send is_alive now hittype params pr)).
Proof.
  intros H. unfold send. destruct (negb _); [done|]. simpl. eauto.
Qed.

Lemma resend_loop_invariant is_alive fresh clock sched i reports pr :
  Inv (pusher pr) →
  Inv (pusher (resend_loop is_alive fresh clock sched i reports pr).2).
Proof.
  revert i pr. induction reports as [|r reports IH]; intros i pr H; simpl;
    [done|].
  destruct (r !! "t"); [|done].
  apply IH. apply run_invariant. by apply send_invariant.
Qed.

Lemma resend_invariant is_alive fresh clock sched pr :
  Inv (pusher pr) →
  Inv (pusher (resend_backuped_reports is_alive fresh clock sched pr).2).
Proof.
  intros H. unfold resend_backuped_reports. simpl.
  destruct (_ !! "backup") as [[|r reports]|]; [done| |done].
  match goal with |- context [resend_loop ?a ?f ?c ?s ?i ?l ?q] =>
    pose proof (resend_loop_invariant a f c s i l q H) as H';
    destruct (resend_loop a f c s i l q) as [[e|] pr'] end; done.
Qed.

Lemma wait_loop_invariant fuel naps k elapsed pr r :
  Inv (pusher pr) → wait_loop fuel naps k elapsed pr = Some r →
  Inv (pusher r.2).
Proof.
  revert k elapsed pr.
  induction fuel as [|fuel IH]; intros k elapsed pr H; simpl; [done|].
  destruct (elapsed <? timeout); [|by intros [= <-]].
  destruct (in_wait (pusher pr)); [by intros [= <-]|].
  destruct (naps k) as [es|]; [|by intros [= <-]].
  apply IH. by apply run_invariant.
Qed.

Lemma finalize_invariant fuel naps clock pr r :
  Inv (pusher pr) → _finalize fuel naps clock pr = Some r →
  Inv (pusher r.2).
Proof.
  intros H. unfold _finalize, finalize_try.
  destruct (wait_loop fuel naps 0 0 pr) as [[[e k] pr']|] eqn:E; [|done].
  apply (wait_loop_invariant _ _ _ _ _ _ H) in E. simpl in E.
  destruct e as [e|].
  - destruct e; intros [= <-]; done.
  - unfold get_items.
    destruct (backup_reports _ _ _) as [[e|] a'];
      [destruct e|]; intros [= <-]; simpl; by apply (Inv_items _ E).
Qed.

Lemma perform_invariant c pr :
  Inv (pusher pr) → Inv (pusher (perform c pr)).
Proof.
  intros H. destruct c; simpl.
  - by apply step_invariant.
  - by apply send_invariant.
  - by apply resend_invariant.
  - destruct (_finalize _ _ _ _) as [[[e k] pr']|] eqn:E; [|done].
    by apply (finalize_invariant _ _ _ _ _ H E).
Qed.

Lemma perform_all_invariant cs pr :
  Inv (pusher pr) → Inv (pusher (perform_all cs pr)).
Proof.
  revert pr. induction cs as [|c cs IH]; intros pr H; simpl; [done|].
  apply IH. by apply perform_invariant.
Qed.
End PusherInvariant.

(** ** The worker roster *)

Lemma prune_loop_skip is_alive fuel i ws :
  (length ws ≤ i + fuel)%nat →
  prune_loop is_alive fuel i ws = take i ws ++ prune_skip is_alive (drop i ws).
Proof.
  revert i ws. induction fuel as [|fuel IH]; intros i ws Hlen; simpl.
  - rewrite drop_ge, take_ge by lia. by rewrite app_nil_r.
  - destruct (ws !! i) as [w|] eqn:Hw.
    + pose proof (lookup_lt_Some _ _ _ Hw) as Hi.
      rewrite (drop_S _ _ _ Hw). simpl. destruct (is_alive w).
      * rewrite IH by lia. rewrite (take_S_r _ _ _ Hw).
        by rewrite <- app_assoc.
      * rewrite IH by (rewrite length_delete by (by eexists); lia).
        rewrite delete_take_drop.
        destruct (drop (S i) ws) as [|w' rest'] eqn:Hd.
        { rewrite app_nil_r. rewrite take_ge, drop_ge
            by (rewrite length_take; lia). by rewrite app_nil_r. }
        assert (length (take i ws) = i) as Hti by (rewrite length_take; lia).
        rewrite take_app_ge, drop_app_ge by lia. rewrite Hti.
        replace (S i - i)%nat with 1%nat by lia. simpl.
        rewrite take_0, drop_0. by rewrite <- app_assoc.
    + apply lookup_ge_None in Hw.
      rewrite drop_ge, take_ge by lia. by rewrite app_nil_r.
Qed.

Lemma prune_spec is_alive ws : prune is_alive ws = prune_skip is_alive ws.
Proof. unfold prune. by rewrite prune_loop_skip by lia. Qed.

Lemma prune_skip_bounds is_alive n ws :
  (length ws ≤ n)%nat →
  filter (λ w, is_alive w = true) ws `sublist_of` prune_skip is_alive ws ∧
  prune_skip is_alive ws `sublist_of` ws.
Proof.
  revert ws. induction n as [|n IH]; intros [|w rest] Hn; simpl in *;
    try done; try lia.
  destruct (IH rest ltac:(lia)) as [IH1 IH2].
  rewrite filter_cons. destruct (is_alive w) eqn:Hw.
  - rewrite decide_True by done. split; by apply sublist_skip.
  - rewrite decide_False by (by intros [=]).
    destruct rest as [|w' rest']; [split; apply sublist_nil_l|].
    destruct (IH rest' ltac:(simpl in *; lia)) as [IH3 IH4].
    split.
    + rewrite filter_cons. case_decide; [by apply sublist_skip|].
      by apply sublist_cons.
    + apply sublist_cons. by apply sublist_skip.
Qed.

Lemma prune_skip_all_alive is_alive ws :
  Forall (λ w, is_alive w = true) ws → prune_skip is_alive ws = ws.
Proof. induction 1 as [|w ws Hw _ IH]; simpl; [done|]. by rewrite Hw, IH. Qed.

Lemma prune_length is_alive ws : (length (prune is_alive ws) ≤ length ws)%nat.
Proof.
  rewrite prune_spec. apply sublist_length.
  by apply (prune_skip_bounds is_alive (length ws)).
Qed.

Lemma tune_workers_roster is_alive p :
  let ws := prune is_alive (_workers p) in
  let need_nums := (length (_queue p) `min` MAX_WORKERS)%nat in
  _workers (_tune_workers is_alive p)
    = ws ++ seq (started p) (need_nums - length ws).
Proof.
  unfold _tune_workers. destruct (_ <=? _)%nat eqn:E; simpl; [|done].
  apply Nat.leb_le in E.
  replace (_ - _)%nat with 0%nat by lia. by rewrite app_nil_r.
Qed.

Lemma tune_workers_started is_alive p :
  let ws := prune is_alive (_workers p) in
  let need_nums := (length (_queue p) `min` MAX_WORKERS)%nat in
  started (_tune_workers is_alive p)
    = (started p + (need_nums - length ws))%nat.
Proof.
  unfold _tune_workers. destruct (_ <=? _)%nat eqn:E; simpl; [|done].
  apply Nat.leb_le in E. lia.
Qed.

Lemma tune_workers_bound is_alive p :
  (length (_workers p) ≤ MAX_WORKERS)%nat →
  (length (_workers (_tune_workers is_alive p)) ≤ MAX_WORKERS)%nat.
Proof.
  intros H. rewrite tune_workers_roster, length_app, length_seq.
  pose proof (prune_length is_alive (_workers p)). lia.
Qed.

Lemma roster_invariant cs pr :
  (length (_workers (pusher pr)) ≤ MAX_WORKERS)%nat →
  (length (_workers (pusher (perform_all cs pr))) ≤ MAX_WORKERS)%nat.
Proof.
  apply (perform_all_invariant
           (λ p, (length (_workers p) ≤ MAX_WORKERS)%nat)).
  - intros is_alive now item p H. unfold push.
    destruct (_http_offline p); [done|]. by apply tune_workers_bound.
  - intros now p loc p' H. unfold worker_get.
    destruct (_queue p); [done|]. by intros [= _ <-].
  - intros loc o p H.
    by pose proof (worker_send_frame loc o p) as (_ & -> & _).
  - done.
Qed.

(** Pushing at once, with every started thread alive: the roster is the
    first [min depth 5] threads. *)
Lemma pushes_roster now items p :
  _http_offline p = false →
  _workers p = seq 0 (started p) →
  started p = (length (_queue p) `min` MAX_WORKERS)%nat →
  let p' := foldl (λ p item, push running now item p) p items in
  _workers p' = seq 0 ((length (_queue p) + length items) `min` MAX_WORKERS).
Proof.
  revert p. induction items as [|x items IH]; intros p Hup Hw Hs; simpl.
  - rewrite Nat.add_0_r. by rewrite <- Hs.
  - pose proof (push_online running now x p Hup) as (Hq & _ & _ & _ & Hoff).
    assert (_workers (push running now x p) =
            seq 0 (S (length (_queue p)) `min` MAX_WORKERS) ∧
            started (push running now x p) =
              (S (length (_queue p)) `min` MAX_WORKERS)%nat) as [Hw' Hs'].
    { unfold push. rewrite Hup.
      rewrite tune_workers_roster, tune_workers_started.
      rewrite prune_spec, prune_skip_all_alive by (by apply Forall_forall).
      change (_workers (queue_put x p)) with (_workers p).
      change (started (queue_put x p)) with (started p).
      change (length (_queue (queue_put x p))) with (S (length (_queue p))).
      rewrite Hw, length_seq, <- seq_app. split; [f_equal|]; lia. }
    specialize (IH (push running now x p) Hoff). rewrite Hq in IH.
    cbn [length] in IH. rewrite IH.
    + f_equal. cbn [length]. lia.
    + by rewrite Hw', Hs'.
    + by rewrite Hs'.
Qed.

(** ** C7 *)

(** C7. Every push made while the network is up runs [_tune_workers] on
    the queue with the new record on it.  [_tune_workers] prunes the
    roster (no live worker is dropped and, when every worker on the
    roster is alive, as it is for threads that run [_worker], the pruned
    roster is the whole roster and its length is the number of live
    workers), takes [need_nums = min (queue depth) MAX_WORKERS] and
    appends [need_nums - active_nums] new threads when that is positive,
    none otherwise.  A roster of at most [MAX_WORKERS = 5] entries stays
    so; hence in a process, whatever is called and however the workers
    are scheduled, the roster never has more than 5 entries, and after
    10 pushes in a row on a fresh pusher it has exactly 5. *)
Theorem roster_never_exceeds_max_workers :
  (∀ is_alive now item p,
     _http_offline p = false →
     push is_alive now item p = _tune_workers is_alive (queue_put item p)) ∧
  (∀ is_alive p,
     let ws := prune is_alive (_workers p) in
     let need_nums := (length (_queue p) `min` MAX_WORKERS)%nat in
     ws = prune_skip is_alive (_workers p) ∧
     filter (λ w, is_alive w = true) (_workers p) `sublist_of` ws ∧
     ws `sublist_of` _workers p ∧
     (Forall (λ w, is_alive w = true) (_workers p) → ws = _workers p) ∧
     _workers (_tune_workers is_alive p)
       = ws ++ seq (started p) (need_nums - length ws) ∧
     ((length (_workers p) ≤ MAX_WORKERS)%nat →
      (length (_workers (_tune_workers is_alive p)) ≤ MAX_WORKERS)%nat)) ∧
  (∀ cs a,
     (length (_workers (pusher (perform_all cs (boot a)))) ≤ MAX_WORKERS)%nat) ∧
  (∀ now items,
     length items = 10%nat →
     _workers (foldl (λ p item, push running now item p) init items)
       = seq 0 5).
Proof.
  split; [|split; [|split]].
  - intros is_alive now item p Hup. unfold push. by rewrite Hup.
  - intros is_alive p ws need_nums. subst ws need_nums.
    rewrite prune_spec.
    pose proof (prune_skip_bounds is_alive _ (_workers p) (le_n _)) as [H1 H2].
    repeat split; try done.
    + apply prune_skip_all_alive.
    + rewrite <- prune_spec. apply tune_workers_roster.
    + apply tune_workers_bound.
  - intros cs a. apply roster_invariant. simpl. unfold MAX_WORKERS. lia.
  - intros now items Hlen.
    rewrite (pushes_roster now items init) by done. simpl. by rewrite Hlen.
Qed.

Lemma roster_never_exceeds_max_workers_witness :
  _workers (foldl (λ p item, push running 0 item p) init
              (report_of "event" <$> [1; 2; 3; 4; 5; 6; 7; 8; 9; 10]))
    = seq 0 5 ∧
  (length (_workers (_tune_workers running
             (mkPusher [A; B; C] 3 [] [] false [0; 1]%nat 2))) ≤ MAX_WORKERS)%nat ∧
  push running 0 A init = _tune_workers running (queue_put A init) ∧
  prune running [0; 1]%nat = [0; 1]%nat.
Proof.
  destruct roster_never_exceeds_max_workers as (H1 & H2 & _ & H4).
  split; [apply H4; reflexivity|].
  split; [apply H2; vm_compute; lia|].
  split; [apply H1; reflexivity|].
  apply (H2 running (mkPusher [A; B; C] 3 [] [] false [0; 1]%nat 2)).
  repeat constructor.
Defined.

(** ** backup_reports *)

Lemma skip_static_lookup (params : Item) key :
  skip_static params !! key =
    if decide (key ∈ STATIC) then None else params !! key.
Proof.
  unfold skip_static. case_decide as Hk.
  - apply map_lookup_filter_None. right. intros v _ Hn. by apply Hn.
  - destruct (params !! key) as [v|] eqn:E.
    + by apply map_lookup_filter_Some.
    + apply map_lookup_filter_None. by left.
Qed.

Lemma qt_not_static : "qt" ∉ STATIC.
Proof. apply (bool_decide_unpack _). by vm_compute. Qed.

Lemma skip_static_qt (params : Item) :
  skip_static params !! "qt" = params !! "qt".
Proof.
  rewrite skip_static_lookup. by rewrite decide_False by apply qt_not_static.
Qed.

Lemma store_time_ok now (params : Item) :
  qt_ok params →
  store_time now (skip_static params) = inr (saved_form now params).
Proof.
  unfold qt_ok, saved_form, store_time. rewrite skip_static_qt.
  by destruct (params !! "qt") as [[]|].
Qed.

Lemma saved_form_other now (params : Item) key :
  key ≠ "qt" → key ∉ STATIC → saved_form now params !! key = params !! key.
Proof.
  intros Hk Hs. unfold saved_form, store_time. rewrite skip_static_qt.
  destruct (params !! "qt") as [[]|]; rewrite ?lookup_insert_ne by done;
    rewrite skip_static_lookup; by rewrite decide_False.
Qed.

Lemma saved_forms_length clock i items :
  length (saved_forms clock i items) = length items.
Proof. revert i. induction items; intros i; simpl; by rewrite ?IHitems. Qed.

Lemma backup_loop_ok clock i items saved :
  Forall qt_ok items →
  backup_loop clock i items saved = inr (saved ++ saved_forms clock i items).
Proof.
  intros H. revert i saved.
  induction H as [|params items Hp _ IH]; intros i saved; simpl.
  - by rewrite app_nil_r.
  - rewrite store_time_ok by done. rewrite IH. by rewrite <- app_assoc.
Qed.

Lemma keep_last_length n l : (length (keep_last n l) ≤ n)%nat.
Proof. unfold keep_last. rewrite length_drop. lia. Qed.


Lemma keep_last_app n l1 l2 :
  (n ≤ length l2)%nat → keep_last n (l1 ++ l2) = drop (length l2 - n) l2.
Proof.
  unfold keep_last. intros H. rewrite length_app.
  rewrite drop_app_ge by lia. f_equal. lia.
Qed.

Lemma backup_set tm l (a : App) :
  backup (set_state_item "telemetry" (<["backup" := l]> tm) a) = l.
Proof.
  unfold backup, set_state_item. simpl.
  rewrite lookup_insert_eq. simpl. by rewrite lookup_insert_eq.
Qed.

Lemma backup_get (a : App) : backup (get_state_item "telemetry" a).2 = backup a.
Proof. done. Qed.

(** What [backup_reports] leaves in the state, in every case. *)
Lemma backup_reports_cases clock items (a : App) :
  let r := backup_reports clock items a in
  (items = [] ∧ r = (None, a)) ∨
  (∃ e, r.1 = Some e ∧ backup r.2 = backup a ∧ state r.2 = state a) ∨
  (∃ saved, items ≠ [] ∧ r.1 = None ∧
     backup_loop clock 0 items (backup a) = inr saved ∧
     backup r.2 = keep_last KEEP_MAX_REPORTS saved).
Proof.
  destruct items as [|x items]; [by left|]. right.
  unfold backup_reports.
  cbn [get_state_item].
  set (tm0 := default ∅ (state a !! "telemetry")).
  assert (default [] (match tm0 !! "backup" with
                      | None => <["backup" := []]> tm0
                      | Some _ => tm0 end !! "backup") = backup a) as ->.
  { unfold backup. fold tm0. destruct (tm0 !! "backup") eqn:E.
    - by rewrite E.
    - by rewrite lookup_insert_eq. }
  destruct (backup_loop clock 0 (x :: items) (backup a)) as [e|saved].
  - left. by exists e.
  - right. exists saved. repeat split; try done.
    simpl. by rewrite backup_set.
Qed.

(** ** The app is touched by [backup_reports] and
       [resend_backuped_reports] only *)

Lemma step_app e pr : app (step e pr) = app pr.
Proof.
  destruct e as [w now|w o]; simpl.
  - destruct (_ <? _)%nat; [|done]. destruct (locals pr !! w); [done|].
    by destruct (worker_get now (pusher pr)) as [[loc p']|].
  - by destruct (locals pr !! w).
Qed.

Lemma run_app es pr : app (run es pr) = app pr.
Proof.
  unfold run. revert pr. induction es as [|e es IH]; intros pr; simpl; [done|].
  by rewrite IH, step_app.
Qed.

Lemma send_app is_alive now hittype params pr :
  app (send is_alive now hittype params pr) = app pr.
Proof. unfold send. by destruct (negb _). Qed.

Lemma resend_loop_app is_alive fresh clock sched i reports pr :
  app (resend_loop is_alive fresh clock sched i reports pr).2 = app pr.
Proof.
  revert i pr. induction reports as [|r reports IH]; intros i pr; simpl;
    [done|].
  destruct (r !! "t"); [|done]. by rewrite IH, run_app, send_app.
Qed.

Lemma wait_loop_app fuel naps k elapsed pr r :
  wait_loop fuel naps k elapsed pr = Some r → app r.2 = app pr.
Proof.
  revert k elapsed pr.
  induction fuel as [|fuel IH]; intros k elapsed pr; simpl; [done|].
  destruct (elapsed <? timeout); [|by intros [= <-]].
  destruct (in_wait (pusher pr)); [by intros [= <-]|].
  destruct (naps k) as [es|]; [|by intros [= <-]].
  intros H%IH. by rewrite H, run_app.
Qed.

(** The saved reports after [resend_backuped_reports]: none, unless an
    exception stopped it. *)
Lemma resend_backup is_alive fresh clock sched pr :
  let r := resend_backuped_reports is_alive fresh clock sched pr in
  match r.1 with
  | inl _ => backup (app r.2) = backup (app pr)
  | inr _ => backup (app r.2) = []
  end.
Proof.
  unfold resend_backuped_reports. cbn [get_state_item].
  set (tm := default ∅ (state (app pr) !! "telemetry")).
  destruct (tm !! "backup") as [[|x reports]|] eqn:E.
  - unfold backup. simpl. fold tm. by rewrite E.
  - match goal with |- context [resend_loop ?a ?f ?c ?s ?i ?l ?q] =>
      pose proof (resend_loop_app a f c s i l q) as H;
      destruct (resend_loop a f c s i l q) as [[e|] pr'] end; simpl in *.
    + by rewrite H.
    + by rewrite backup_set.
  - unfold backup. simpl. fold tm. by rewrite E.
Qed.

Lemma backup_reports_bound clock items (a : App) :
  (length (backup a) ≤ KEEP_MAX_REPORTS)%nat →
  (length (backup (backup_reports clock items a).2) ≤ KEEP_MAX_REPORTS)%nat.
Proof.
  intros H.
  destruct (backup_reports_cases clock items a)
    as [[_ ->]|[(e & _ & -> & _)|(saved & _ & _ & _ & ->)]]; try done.
  apply keep_last_length.
Qed.

Lemma finalize_app fuel naps clock pr r :
  _finalize fuel naps clock pr = Some r →
  app r.2 = app pr ∨
  ∃ pw k, wait_loop fuel naps 0 0 pr = Some (None, k, pw) ∧
    app r.2 = (backup_reports clock (get_items (pusher pw)).1 (app pr)).2.
Proof.
  unfold _finalize, finalize_try.
  destruct (wait_loop fuel naps 0 0 pr) as [[[e k] pw]|] eqn:E; [|done].
  pose proof (wait_loop_app _ _ _ _ _ _ E) as Ha. simpl in Ha.
  destruct e as [e|].
  - intros H. left. destruct e; injection H as <-; done.
  - intros H. right. exists pw, k. split; [done|]. rewrite <- Ha.
    unfold get_items in *. simpl.
    destruct (backup_reports _ _ _) as [[e|] a'];
      [destruct e|]; injection H as <-; done.
Qed.

Lemma backup_bound_invariant cs pr :
  (length (backup (app pr)) ≤ KEEP_MAX_REPORTS)%nat →
  (length (backup (app (perform_all cs pr))) ≤ KEEP_MAX_REPORTS)%nat.
Proof.
  revert pr. induction cs as [|c cs IH]; intros pr H; simpl; [done|].
  apply IH. destruct c; simpl.
  - by rewrite step_app.
  - by rewrite send_app.
  - pose proof (resend_backup is_alive fresh clock sched pr) as Hr.
    simpl in Hr. destruct (resend_backuped_reports _ _ _ _ _).1.
    + by rewrite Hr.
    + rewrite Hr. simpl. lia.
  - destruct (_finalize _ _ _ _) as [[[e k] pr']|] eqn:E; [|done].
    apply finalize_app in E. simpl in E.
    destruct E as [->|(pw & k' & _ & ->)]; [done|].
    by apply backup_reports_bound.
Qed.

(** ** C6 *)

(** C6. Backing up a non-empty list of records whose queue times are
    numbers succeeds and leaves in the state the last
    [KEEP_MAX_REPORTS = 100] entries of the old backlog followed by the
    saved forms of the records, in order: entries are dropped from the
    front, oldest first.  So the backlog then has at most 100 entries,
    and after a backup of 150 records it consists of the saved forms of
    the last 100 of them.  Whatever is called afterwards in the process,
    a backlog of at most 100 entries never grows beyond 100. *)
Theorem backlog_capped :
  (∀ clock items a,
     items ≠ [] → Forall qt_ok items →
     ∃ a',
       backup_reports clock items a = (None, a') ∧
       backup a' = keep_last KEEP_MAX_REPORTS
                     (backup a ++ saved_forms clock 0 items) ∧
       (length (backup a') ≤ 100)%nat ∧
       (length items = 150%nat →
        backup a' = drop 50 (saved_forms clock 0 items))) ∧
  (∀ cs pr,
     (length (backup (app pr)) ≤ 100)%nat →
     (length (backup (app (perform_all cs pr))) ≤ 100)%nat).
Proof.
  split; [|apply backup_bound_invariant].
  intros clock items a Hne Hok.
  destruct (backup_reports_cases clock items a)
    as [[? _]|[(e & He & _)|(saved & _ & Hn & Hl & Hb)]]; [done| |].
  - exfalso. revert He. unfold backup_reports.
    destruct items as [|x items]; [done|]. cbn [get_state_item].
    rewrite backup_loop_ok by done. done.
  - rewrite backup_loop_ok in Hl by done. injection Hl as <-.
    exists (backup_reports clock items a).2. repeat split; try done.
    + by destruct (backup_reports clock items a) as [? ?]; simpl in *; subst.
    + rewrite Hb. apply keep_last_length.
    + intros H150. rewrite Hb, keep_last_app
        by (rewrite saved_forms_length, H150; unfold KEEP_MAX_REPORTS; lia).
      by rewrite saved_forms_length, H150.
Qed.

Lemma backlog_capped_witness :
  ∃ a',
    backup_reports noon (report_of "event" <$> (Z.of_nat <$> seq 0 150))
      (app_with true [A]) = (None, a') ∧
    backup a' = drop 50 (saved_forms noon 0
                  (report_of "event" <$> (Z.of_nat <$> seq 0 150))) ∧
    (length (backup a') ≤ 100)%nat.
Proof.
  destruct backlog_capped as [H _].
  destruct (H noon (report_of "event" <$> (Z.of_nat <$> seq 0 150))
              (app_with true [A]))
    as (a' & Hr & _ & Hl & H150).
  - discriminate.
  - apply (bool_decide_unpack _). vm_compute. exact I.
  - exists a'. split; [exact Hr|]. split; [|exact Hl]. apply H150. reflexivity.
Defined.

(** ** _finalize *)

Lemma run_app_events es1 es2 pr : run (es1 ++ es2) pr = run es2 (run es1 pr).
Proof. unfold run. by rewrite foldl_app. Qed.


Lemma slept_snoc naps k n :
  slept naps k (S n) = slept naps k n ++ nap_events (naps (k + n)%nat).
Proof.
  unfold slept. rewrite seq_S, fmap_app, concat_app. simpl.
  by rewrite app_nil_r.
Qed.




(** ** C3 *)




(** ** Telemetry switched off *)

Lemma send_disabled is_alive now hittype params pr :
  enable_telemetry (app pr) = false →
  send is_alive now hittype params pr = pr.
Proof. unfold send. by intros ->. Qed.

Lemma run_enable es pr :
  enable_telemetry (app (run es pr)) = enable_telemetry (app pr).
Proof. by rewrite run_app. Qed.

Lemma step_with_app e a pr : step e (with_app a pr) = with_app a (step e pr).
Proof.
  destruct e as [w now|w o]; simpl.
  - destruct (_ <? _)%nat; [|done]. destruct (locals pr !! w); [done|].
    by destruct (worker_get now (pusher pr)) as [[loc p']|].
  - by destruct (locals pr !! w).
Qed.

Lemma run_with_app es a pr : run es (with_app a pr) = with_app a (run es pr).
Proof.
  unfold run. revert pr. induction es as [|e es IH]; intros pr; simpl; [done|].
  by rewrite step_with_app, IH.
Qed.

Lemma scheduled_S sched i n :
  scheduled sched i (S n) = sched i ++ scheduled sched (S i) n.
Proof. done. Qed.

Lemma resend_loop_disabled is_alive fresh clock sched i reports pr :
  enable_telemetry (app pr) = false →
  Forall (λ r : Item, is_Some (r !! "t")) reports →
  resend_loop is_alive fresh clock sched i reports pr
    = (None, run (scheduled sched i (length reports)) pr).
Proof.
  intros Hoff H. revert i pr Hoff.
  induction H as [|r reports [t Ht] _ IH]; intros i pr Hoff; simpl; [done|].
  rewrite Ht, send_disabled by done.
  rewrite IH by (by rewrite run_enable).
  by rewrite scheduled_S, run_app_events.
Qed.

(** No thread was started in a fresh process: there is nothing to
    schedule. *)
Lemma run_boot es a : run es (boot a) = boot a.
Proof.
  unfold run. induction es as [|e es IH]; simpl; [done|].
  by destruct e.
Qed.

Lemma backup_lookup (a : App) x l :
  backup a = x :: l →
  default ∅ (state a !! "telemetry") !! "backup" = Some (x :: l).
Proof.
  unfold backup.
  destruct (default ∅ (state a !! "telemetry") !! "backup"); simpl;
    by intros [= ->].
Qed.

(** ** C9 *)

(** C9. With the enable-telemetry setting off, [send] returns the
    process as it found it: nothing is queued and nothing posted.
    [resend_backuped_reports] on a non-empty backlog (of reports that
    carry their hit type "t", as every saved report does) still ends by
    writing an empty backlog to the state: it reads the state once and
    writes it once, and the pusher is only what the workers make of it
    meanwhile.  In a fresh process the pusher is still as [__init__]
    left it, empty queue, empty failed list, nothing posted, and the
    exit hook then saves nothing: the backlog is gone. *)
Theorem disabled_telemetry_discards_backlog is_alive fresh clock sched :
  (∀ pr now hittype params,
     enable_telemetry (app pr) = false →
     send is_alive now hittype params pr = pr) ∧
  (∀ pr,
     enable_telemetry (app pr) = false →
     backup (app pr) ≠ [] →
     Forall (λ r : Item, is_Some (r !! "t")) (backup (app pr)) →
     ∃ pr',
       resend_backuped_reports is_alive fresh clock sched pr = (inr None, pr') ∧
       backup (app pr') = [] ∧
       calls (app pr') = calls (app pr)
         ++ [GetStateItem "telemetry"; SetStateItem "telemetry"] ∧
       pusher pr' =
         pusher (run (scheduled sched 0 (length (backup (app pr)))) pr) ∧
       locals pr' =
         locals (run (scheduled sched 0 (length (backup (app pr)))) pr)) ∧
  (∀ a naps clock',
     enable_telemetry a = false →
     backup a ≠ [] →
     Forall (λ r : Item, is_Some (r !! "t")) (backup a) →
     ∃ pr' pr'',
       resend_backuped_reports is_alive fresh clock sched (boot a)
         = (inr None, pr') ∧
       pusher pr' = init ∧
       _finalize finalize_fuel naps clock' pr' = Some (None, 0%nat, pr'') ∧
       pusher pr'' = init ∧
       backup (app pr'') = []).
Proof.
  assert (∀ pr,
     enable_telemetry (app pr) = false →
     backup (app pr) ≠ [] →
     Forall (λ r : Item, is_Some (r !! "t")) (backup (app pr)) →
     ∃ pr',
       resend_backuped_reports is_alive fresh clock sched pr = (inr None, pr') ∧
       backup (app pr') = [] ∧
       calls (app pr') = calls (app pr)
         ++ [GetStateItem "telemetry"; SetStateItem "telemetry"] ∧
       pusher pr' =
         pusher (run (scheduled sched 0 (length (backup (app pr)))) pr) ∧
       locals pr' =
         locals (run (scheduled sched 0 (length (backup (app pr)))) pr)) as Hre.
  { intros pr Hoff Hne Ht.
    destruct (backup (app pr)) as [|x l] eqn:Hb; [done|].
    apply backup_lookup in Hb.
    unfold resend_backuped_reports. cbn [get_state_item]. rewrite Hb.
    rewrite resend_loop_disabled by done.
    eexists. split; [reflexivity|]. simpl.
    rewrite backup_set, run_app. simpl. rewrite <- app_assoc.
    rewrite run_with_app. repeat split; try done. }
  split; [intros; by apply send_disabled|]. split; [exact Hre|].
  intros a naps clock' Hoff Hne Ht.
  destruct (Hre (boot a) Hoff Hne Ht) as (pr' & Hr & Hb & _ & Hp & Hl).
  rewrite run_boot in Hp, Hl. simpl in Hp, Hl.
  exists pr'. destruct pr' as [p' l' a']. simpl in *. subst p' l'.
  eexists. split; [done|]. split; [done|].
  split; [reflexivity|]. by split.
Qed.

Lemma disabled_telemetry_discards_backlog_witness :
  send running 0 (VStr "A") A (boot (app_with false [A; B])) =
    boot (app_with false [A; B]) ∧
  ∃ pr' pr'',
    resend_backuped_reports running ∅ noon idle (boot (app_with false [A; B]))
      = (inr None, pr') ∧
    pusher pr' = init ∧
    _finalize finalize_fuel (λ _, Slept []) noon pr' = Some (None, 0%nat, pr'') ∧
    pusher pr'' = init ∧
    backup (app pr'') = [].
Proof.
  destruct (disabled_telemetry_discards_backlog running ∅ noon idle)
    as (H1 & _ & H3).
  split.
  - apply H1. reflexivity.
  - apply H3.
    + reflexivity.
    + discriminate.
    + apply (bool_decide_unpack _). vm_compute. exact I.
Defined.

(** ** The offline flag *)










Lemma backup_reports_ok clock items (a : App) :
  items ≠ [] → Forall qt_ok items →
  (backup_reports clock items a).1 = None ∧
  backup (backup_reports clock items a).2 =
    keep_last KEEP_MAX_REPORTS (backup a ++ saved_forms clock 0 items).
Proof.
  intros Hne Hok.
  destruct (backup_reports_cases clock items a)
    as [[? _]|[(e & He & _)|(saved & _ & Hn & Hl & Hb)]]; [done| |].
  - exfalso. revert He. unfold backup_reports.
    destruct items as [|x items]; [done|]. cbn [get_state_item].
    rewrite backup_loop_ok by done. done.
  - rewrite backup_loop_ok in Hl by done. injection Hl as <-. done.
Qed.


(** ** C1 *)



(** ** Resending the backlog *)

Lemma short_keys_lookup (report : Item) name short :
  short_keys report → PARAMS_MAP !! name = Some short → report !! name = None.
Proof.
  intros H Hn. unfold short_keys in H. rewrite Forall_forall in H.
  apply (H (name, short)). by apply elem_of_map_to_list.
Qed.

Lemma short_keys_setitem (report : Item) key v params :
  short_keys report → report !! key = Some v →
  setitem key v params = <[key := v]> params.
Proof.
  intros H Hk. unfold setitem.
  destruct (PARAMS_MAP !! key) as [short|] eqn:E; [|done].
  rewrite (short_keys_lookup _ _ _ H E) in Hk. done.
Qed.













(** *** The outstanding records follow the reports *)















(** ** C4 *)



(** * Further properties *)

(** ** The pruning loop of [_tune_workers] *)

Lemma no_adjacent_dead_tail is_alive w ws :
  no_adjacent_dead is_alive (w :: ws) → no_adjacent_dead is_alive ws.
Proof. intros H i w1 w2 H1 H2. by apply (H (S i) w1 w2). Qed.

Lemma prune_skip_filter is_alive n ws :
  (length ws ≤ n)%nat →
  no_adjacent_dead is_alive ws →
  prune_skip is_alive ws = filter (λ w, is_alive w = true) ws.
Proof.
  revert ws. induction n as [|n IH]; intros [|w rest] Hn Hadj; simpl in *;
    try done; try lia.
  rewrite filter_cons. destruct (is_alive w) eqn:Hw.
  - rewrite decide_True by done. f_equal. apply IH; [lia|].
    by apply no_adjacent_dead_tail in Hadj.
  - rewrite decide_False by (by intros [=]).
    destruct rest as [|w' rest']; [done|].
    destruct (Hadj 0%nat w w' eq_refl eq_refl) as [?|Hw']; [congruence|].
    rewrite filter_cons, decide_True by done. f_equal.
    apply IH; [simpl in *; lia|].
    by do 2 apply no_adjacent_dead_tail in Hadj.
Qed.

(** X1. The pruning loop deletes while it iterates.  A dead worker is
    deleted, and the worker after it is kept without being looked at,
    dead or alive.  No live worker is ever deleted, nothing is added,
    and when no two neighbours on the roster are both dead, the pruned
    roster is exactly the live workers. *)
Theorem prune_deletes_while_iterating is_alive :
  (∀ w1 w2 rest,
     is_alive w1 = false →
     prune is_alive (w1 :: w2 :: rest) = w2 :: prune is_alive rest) ∧
  (∀ w rest,
     is_alive w = true →
     prune is_alive (w :: rest) = w :: prune is_alive rest) ∧
  (∀ ws,
     filter (λ w, is_alive w = true) ws `sublist_of` prune is_alive ws ∧
     prune is_alive ws `sublist_of` ws) ∧
  (∀ ws,
     no_adjacent_dead is_alive ws →
     prune is_alive ws = filter (λ w, is_alive w = true) ws).
Proof.
  repeat split.
  - intros w1 w2 rest Hd. rewrite !prune_spec. simpl. by rewrite Hd.
  - intros w rest Ha. rewrite !prune_spec. simpl. by rewrite Ha.
  - rewrite prune_spec. by apply (prune_skip_bounds is_alive (length ws)).
  - rewrite prune_spec. by apply (prune_skip_bounds is_alive (length ws)).
  - intros ws Hadj. rewrite prune_spec.
    by apply (prune_skip_filter is_alive (length ws)).
Qed.

Lemma prune_deletes_while_iterating_witness :
  prune (λ w, bool_decide (w = 2%nat)) [0; 1; 2; 3]%nat = [1; 2]%nat ∧
  prune (λ w, bool_decide (w ≠ 1%nat)) [0; 1; 2; 3]%nat = [0; 2; 3]%nat.
Proof.
  destruct (prune_deletes_while_iterating (λ w, bool_decide (w = 2%nat)))
    as (H1 & _ & _ & _).
  destruct (prune_deletes_while_iterating (λ w, bool_decide (w ≠ 1%nat)))
    as (_ & _ & _ & H4).
  split.
  - rewrite H1 by reflexivity. reflexivity.
  - rewrite H4; [reflexivity|].
    intros [|[|[|[|i]]]] w1 w2 [= <-] [= <-]; vm_compute; auto.
Defined.

(** ** Threads on the roster *)

Lemma tune_workers_distinct is_alive p :
  NoDup (_workers p) → Forall (λ w, (w < started p)%nat) (_workers p) →
  let p' := _tune_workers is_alive p in
  NoDup (_workers p') ∧ Forall (λ w, (w < started p')%nat) (_workers p') ∧
  (started p ≤ started p')%nat.
Proof.
  intros Hnd Hlt. cbv zeta.
  rewrite tune_workers_roster, tune_workers_started.
  pose proof (prune_skip_bounds is_alive _ (_workers p) (le_n _)) as [_ Hsub].
  rewrite <- prune_spec in Hsub.
  set (n := (_ - _)%nat).
  assert (Forall (λ w, (w < started p)%nat) (prune is_alive (_workers p))) as Hlt'.
  { rewrite Forall_forall in *. intros w Hw. apply Hlt.
    by apply (elem_of_sublist _ _ _ Hw Hsub). }
  split; [|split; [|lia]].
  - apply NoDup_app. split; [by eapply sublist_NoDup|].
    split; [|apply NoDup_seq].
    intros w Hw Hs. apply elem_of_seq in Hs.
    rewrite Forall_forall in Hlt'. specialize (Hlt' w Hw). lia.
  - apply Forall_app. split.
    + eapply Forall_impl; [exact Hlt'|]. intros w Hw. simpl in Hw. lia.
    + apply Forall_forall. intros w Hs%elem_of_seq. lia.
Qed.

(** X2. Throughout a process, whatever is called, however the workers
    are scheduled and whatever liveness the threads report, the roster
    holds distinct threads, each one started earlier by [_tune_workers]:
    no thread is on the roster twice and none that was never started. *)
Theorem roster_distinct_started cs a :
  let p := pusher (perform_all cs (boot a)) in
  NoDup (_workers p) ∧ Forall (λ w, (w < started p)%nat) (_workers p).
Proof.
  apply (perform_all_invariant
    (λ p, NoDup (_workers p) ∧ Forall (λ w, (w < started p)%nat) (_workers p))).
  - intros is_alive now item p [Hnd Hlt]. unfold push.
    destruct (_http_offline p); [done|].
    by destruct (tune_workers_distinct is_alive (queue_put item p) Hnd Hlt)
      as (? & ? & _).
  - intros now p loc p' H. unfold worker_get.
    destruct (_queue p); [done|]. by intros [= _ <-].
  - intros loc o p H.
    by pose proof (worker_send_frame loc o p) as (_ & -> & ->).
  - done.
  - simpl. split; [apply NoDup_nil_2|apply Forall_nil_2].
Qed.

(** ** Invariants of the process

    A property of the process that a worker's step, a push and
    [get_items] preserve, and that does not look at the app, holds for
    the rest of the process. *)

Section ProcessInvariant.
Variable Inv : Process → Prop.
Hypothesis Inv_step : ∀ e pr, Inv pr → Inv (step e pr).
Hypothesis Inv_push :
  ∀ is_alive now item pr,
    Inv pr → Inv (with_pusher (push is_alive now item (pusher pr)) pr).
Hypothesis Inv_app : ∀ a pr, Inv pr → Inv (with_app a pr).
Hypothesis Inv_items :
  ∀ pr, Inv pr → Inv (with_pusher (get_items (pusher pr)).2 pr).

Lemma run_keeps es pr : Inv pr → Inv (run es pr).
Proof.
  unfold run. revert pr. induction es as [|e es IH]; intros pr H; simpl;
    [done|].
  apply IH. by apply Inv_step.
Qed.

Lemma send_keeps is_alive now hittype params pr :
  Inv pr → Inv (send is_alive now hittype params pr).
Proof. intros H. unfold send. destruct (negb _); [done|]. by apply Inv_push. Qed.

Lemma resend_loop_keeps is_alive fresh clock sched i reports pr :
  Inv pr → Inv (resend_loop is_alive fresh clock sched i reports pr).2.
Proof.
  revert i pr. induction reports as [|r reports IH]; intros i pr H; simpl;
    [done|].
  destruct (r !! "t"); [|done].
  apply IH. apply run_keeps. by apply send_keeps.
Qed.

Lemma resend_keeps is_alive fresh clock sched pr :
  Inv pr → Inv (resend_backuped_reports is_alive fresh clock sched pr).2.
Proof.
  intros H. unfold resend_backuped_reports. cbn [get_state_item].
  destruct (_ !! "backup") as [[|r reports]|]; try (by apply Inv_app).
  match goal with |- context [resend_loop ?a ?f ?c ?s ?i ?l ?q] =>
    pose proof (resend_loop_keeps a f c s i l q (Inv_app _ _ H)) as H';
    destruct (resend_loop a f c s i l q) as [[e|] pr'] end; simpl in *;
    [done|].
  by apply Inv_app.
Qed.

Lemma wait_loop_keeps fuel naps k elapsed pr r :
  Inv pr → wait_loop fuel naps k elapsed pr = Some r → Inv r.2.
Proof.
  revert k elapsed pr.
  induction fuel as [|fuel IH]; intros k elapsed pr H; simpl; [done|].
  destruct (elapsed <? timeout); [|by intros [= <-]].
  destruct (in_wait (pusher pr)); [by intros [= <-]|].
  destruct (naps k) as [es|]; [|by intros [= <-]].
  apply IH. by apply run_keeps.
Qed.

Lemma finalize_keeps fuel naps clock pr r :
  Inv pr → _finalize fuel naps clock pr = Some r → Inv r.2.
Proof.
  intros H. unfold _finalize, finalize_try.
  destruct (wait_loop fuel naps 0 0 pr) as [[[e k] pw]|] eqn:E; [|done].
  apply (wait_loop_keeps _ _ _ _ _ _ H) in E. simpl in E.
  destruct e as [e|].
  - destruct e; intros [= <-]; done.
  - pose proof (Inv_app (backup_reports clock (get_items (pusher pw)).1
                           (app pw)).2 _ (Inv_items _ E)) as H'.
    unfold get_items in *. simpl in *.
    destruct (backup_reports _ _ _) as [[e|] a'];
      [destruct e|]; intros [= <-]; done.
Qed.

Lemma perform_keeps c pr : Inv pr → Inv (perform c pr).
Proof.
  intros H. destruct c; simpl.
  - by apply Inv_step.
  - by apply send_keeps.
  - by apply resend_keeps.
  - destruct (_finalize _ _ _ _) as [[[e k] pr']|] eqn:E; [|done].
    by apply (finalize_keeps _ _ _ _ _ H E).
Qed.

Lemma perform_all_keeps cs pr : Inv pr → Inv (perform_all cs pr).
Proof.
  unfold perform_all. revert pr.
  induction cs as [|c cs IH]; intros pr H; simpl; [done|].
  apply IH. by apply perform_keeps.
Qed.
End ProcessInvariant.

(** ** The pending count *)

Lemma worker_try_unfinished loc o p :
  let p' := (worker_try loc o p).2 in
  unfinished_tasks p' = unfinished_tasks p ∨
  S (unfinished_tasks p') = unfinished_tasks p.
Proof.
  destruct loc as [item _item]. unfold worker_try.
  pose proof (send_data_frame item o p) as (_ & Hu & _).
  destruct (_send_data item o p) as [[e|[]] p1]; simpl in *; [by left| |].
  - destruct (deque_remove _ _) as [f|]; simpl; [|by left].
    unfold task_done. simpl. rewrite Hu.
    destruct (unfinished_tasks p); simpl; [by left|by right].
  - unfold task_done. rewrite Hu.
    destruct (unfinished_tasks p) eqn:E; simpl; [by left|by right].
Qed.

Lemma pending_count_step e pr :
  (length (_queue (pusher pr)) + size (locals pr)
     ≤ unfinished_tasks (pusher pr))%nat →
  (length (_queue (pusher (step e pr))) + size (locals (step e pr))
     ≤ unfinished_tasks (pusher (step e pr)))%nat.
Proof.
  intros H. destruct e as [w now|w o]; simpl.
  - destruct (_ <? _)%nat; [|done].
    destruct (locals pr !! w) eqn:Hw; [done|].
    unfold worker_get. destruct (_queue (pusher pr)) as [|item q] eqn:Hq;
      [by rewrite Hq|].
    simpl. rewrite map_size_insert_None by done. simpl in H. lia.
  - destruct (locals pr !! w) as [loc|] eqn:Hw; [|done]. simpl.
    rewrite map_size_delete_Some by done.
    assert (size (locals pr) ≠ 0%nat) as Hs.
    { intros Hz%map_size_empty_inv. by rewrite Hz, lookup_empty in Hw. }
    pose proof (worker_send_frame loc o (pusher pr)) as (-> & _).
    rewrite worker_send_state.
    destruct (worker_try_unfinished loc o (pusher pr)) as [->|Hd]; lia.
Qed.

(** X3. In a process, whatever is called and however the workers are
    scheduled, the pending count [in_wait()] is never below the number
    of queued records plus the number of workers that hold a record.  So
    when the exit hook sees [in_wait()] at zero, the queue is empty and
    no worker is in the middle of a send. *)
Theorem pending_count_covers_outstanding cs a :
  let pr := perform_all cs (boot a) in
  (length (_queue (pusher pr)) + size (locals pr) ≤ in_wait (pusher pr))%nat ∧
  (in_wait (pusher pr) = O → _queue (pusher pr) = [] ∧ locals pr = ∅).
Proof.
  cbv zeta.
  assert (length (_queue (pusher (perform_all cs (boot a))))
          + size (locals (perform_all cs (boot a)))
          ≤ in_wait (pusher (perform_all cs (boot a))))%nat as H.
  { apply (perform_all_keeps
      (λ pr, (length (_queue (pusher pr)) + size (locals pr)
                ≤ unfinished_tasks (pusher pr))%nat)).
    - intros e pr. apply pending_count_step.
    - intros is_alive now item pr H. simpl. unfold push.
      destruct (_http_offline (pusher pr)); [done|].
      pose proof (tune_workers_frame is_alive (queue_put item (pusher pr)))
        as (-> & -> & _). simpl. lia.
    - done.
    - intros pr H. simpl. lia.
    - simpl. rewrite map_size_empty. lia. }
  split; [done|]. intros Hz. rewrite Hz in H.
  split.
  - apply length_zero_iff_nil. lia.
  - apply map_size_empty_inv. lia.
Qed.

(** ** When every send is delivered *)








(** ** What [backup_reports] saves *)

Lemma long_names_kept :
  Forall (λ kv : string * string, kv.1 ≠ "qt" ∧ kv.1 ∉ STATIC)
         (map_to_list PARAMS_MAP).
Proof. apply (bool_decide_unpack _). by vm_compute. Qed.

Lemma t_not_static : "t" ∉ STATIC.
Proof. apply (bool_decide_unpack _). by vm_compute. Qed.

Lemma saved_form_qt now (params : Item) :
  qt_ok params → ∃ ms, saved_form now params !! "qt" = Some (VFloat ms).
Proof.
  unfold qt_ok, saved_form, store_time. rewrite skip_static_qt.
  destruct (params !! "qt") as [[]|] eqn:E; try done; intros _.
  - eexists. by rewrite lookup_insert_eq.
  - eexists. by rewrite skip_static_qt, E.
  - eexists. by rewrite lookup_insert_eq.
Qed.

Lemma saved_form_static now (params : Item) key :
  key ∈ STATIC → saved_form now params !! key = None.
Proof.
  intros Hk. assert (key ≠ "qt") as Hne.
  { intros ->. by apply qt_not_static. }
  unfold saved_form, store_time. rewrite skip_static_qt.
  destruct (params !! "qt") as [[]|]; rewrite ?lookup_insert_ne by done;
    rewrite skip_static_lookup; by rewrite decide_True.
Qed.

Lemma saved_form_well_formed now (params : Item) :
  well_formed params →
  well_formed (saved_form now params) ∧ normalized (saved_form now params).
Proof.
  intros (Ht & Hs & Hq). split; [split; [|split]|split].
  - rewrite saved_form_other; [done|done|apply t_not_static].
  - unfold short_keys in *. pose proof long_names_kept as Hl.
    rewrite Forall_forall in *. intros kv Hkv.
    destruct (Hl kv Hkv) as [H1 H2].
    rewrite saved_form_other by done. by apply Hs.
  - unfold qt_ok. by destruct (saved_form_qt now params Hq) as [ms ->].
  - by apply saved_form_qt.
  - apply Forall_forall. intros key Hk. by apply saved_form_static.
Qed.

Lemma saved_forms_well_formed clock i items :
  Forall well_formed items →
  Forall (λ r, well_formed r ∧ normalized r) (saved_forms clock i items).
Proof.
  intros H. revert i. induction H as [|x items Hx _ IH]; intros i; simpl.
  - done.
  - apply Forall_cons. split; [by apply saved_form_well_formed|apply IH].
Qed.

Lemma resend_loop_no_error is_alive fresh clock sched i reports pr :
  Forall (λ r : Item, is_Some (r !! "t")) reports →
  (resend_loop is_alive fresh clock sched i reports pr).1 = None.
Proof.
  intros H. revert i pr.
  induction H as [|r reports [t Ht] _ IH]; intros i pr; simpl; [done|].
  rewrite Ht. apply IH.
Qed.

(** X5. The backlog stays readable.  If the saved reports and the
    records handed to [backup_reports] are well formed (hit type
    present, short keys, a number or nothing as queue time),
    [backup_reports] succeeds and every report then in the backlog is
    well formed, and every report it wrote has a float queue time and
    none of the static options "v", "tid", "cid", "cd1", "cd2", "sr",
    "an".  On such a backlog [resend_backuped_reports] does not raise. *)
Theorem backlog_stays_readable clock items a :
  Forall well_formed items →
  Forall well_formed (backup a) →
  let r := backup_reports clock items a in
  r.1 = None ∧
  Forall well_formed (backup r.2) ∧
  Forall (λ x, well_formed x ∧ normalized x) (saved_forms clock 0 items) ∧
  (items ≠ [] →
   backup r.2 = keep_last KEEP_MAX_REPORTS
                  (backup a ++ saved_forms clock 0 items)) ∧
  (∀ is_alive fresh clock' sched p l,
     ∃ v pr',
       resend_backuped_reports is_alive fresh clock' sched (mkProcess p l r.2)
         = (inr v, pr')).
Proof.
  intros Hitems Hold r.
  pose proof (saved_forms_well_formed clock 0 items Hitems) as Hnew.
  assert (Forall qt_ok items) as Hqt.
  { eapply Forall_impl; [exact Hitems|]. by intros x (_ & _ & ?). }
  assert (r.1 = None ∧ Forall well_formed (backup r.2) ∧
          (items ≠ [] →
           backup r.2 = keep_last KEEP_MAX_REPORTS
                          (backup a ++ saved_forms clock 0 items)))
    as (He & Hwf & Hb).
  { subst r. destruct items as [|x items]; [done|].
    destruct (backup_reports_ok clock (x :: items) a) as [He Hb]; [done..|].
    split; [done|]. split; [|done]. rewrite Hb.
    apply Forall_drop, Forall_app. split; [done|].
    eapply Forall_impl; [exact Hnew|]. by intros y [? _]. }
  repeat split; try done.
  intros is_alive fresh clock' sched p l.
  unfold resend_backuped_reports. cbn [get_state_item].
  change (app (mkProcess p l r.2)) with r.2.
  destruct (default ∅ (state r.2 !! "telemetry") !! "backup")
    as [[|y reports]|] eqn:E; try (by eexists _, _).
  assert (backup r.2 = y :: reports) as Hbk by (unfold backup; by rewrite E).
  match goal with |- context [resend_loop ?al ?f ?c ?s ?i ?rs ?q] =>
    pose proof (resend_loop_no_error al f c s i rs q) as Hn;
    destruct (resend_loop al f c s i rs q) as [e pr'] end.
  simpl in Hn. rewrite Hn; [by eexists _, _|].
  rewrite <- Hbk. eapply Forall_impl; [exact Hwf|]. by intros z (? & _).
Qed.

Lemma backlog_stays_readable_witness :
  (backup_reports noon [<["v" := VInt 1]> A; <["qt" := VInt 2500]> B]
     (app_with true [<["qt" := VFloat 7]> C])).1 = None ∧
  Forall (λ x, well_formed x ∧ normalized x)
    (saved_forms noon 0 [<["v" := VInt 1]> A; <["qt" := VInt 2500]> B]).
Proof.
  destruct (backlog_stays_readable noon
              [<["v" := VInt 1]> A; <["qt" := VInt 2500]> B]
              (app_with true [<["qt" := VFloat 7]> C]))
    as (H1 & _ & H3 & _).
  - apply (bool_decide_unpack _). vm_compute. exact I.
  - apply (bool_decide_unpack _). vm_compute. exact I.
  - split; [exact H1|exact H3].
Defined.

(** ** A queue time that is not a number *)

Lemma store_time_bad now (params : Item) :
  ¬ qt_ok params → store_time now (skip_static params) = inl TypeError.
Proof.
  unfold qt_ok, store_time. rewrite skip_static_qt.
  by destruct (params !! "qt") as [[]|].
Qed.

Lemma backup_loop_bad clock i items saved :
  Exists (λ r, ¬ qt_ok r) items →
  backup_loop clock i items saved = inl TypeError.
Proof.
  intros H. revert i saved.
  induction H as [x items Hx|x items _ IH]; intros i saved; simpl.
  - by rewrite store_time_bad.
  - destruct (decide (qt_ok x)) as [Hok|Hbad].
    + rewrite store_time_ok by done. apply IH.
    + by rewrite store_time_bad.
Qed.

(** X6. If the queue time of one of the records is a string,
    [backup_reports] raises [TypeError] when it reaches it, after
    reading the state and before writing it: the state file is as it
    was, and none of the records is saved, not even those handled
    before the offending one. *)
Theorem backup_reports_type_error clock items a :
  Exists (λ r, ¬ qt_ok r) items →
  backup_reports clock items a
    = (Some TypeError,
       mkApp (state a) (enable_telemetry a)
             (calls a ++ [GetStateItem "telemetry"])).
Proof.
  intros H. unfold backup_reports.
  destruct items as [|x items]; [by apply Exists_nil in H|].
  cbn [get_state_item]. by rewrite backup_loop_bad.
Qed.

Lemma backup_reports_type_error_witness :
  backup_reports noon [A; <["qt" := VStr "soon"]> B; C] (app_with true [C])
    = (Some TypeError,
       mkApp (state (app_with true [C])) true [GetStateItem "telemetry"]).
Proof.
  apply (backup_reports_type_error noon
           [A; <["qt" := VStr "soon"]> B; C] (app_with true [C])).
  apply Exists_cons_tl, Exists_cons_hd. vm_compute. tauto.
Defined.

(** ** The queue time from [send] to [backup_reports] *)



(** ** The rest of the state file *)

Lemma same_elsewhere_refl a : same_elsewhere a a.
Proof. by repeat split. Qed.

Lemma same_elsewhere_trans a1 a2 a3 :
  same_elsewhere a1 a2 → same_elsewhere a2 a3 → same_elsewhere a1 a3.
Proof.
  intros (H1 & H2 & H3) (H1' & H2' & H3'). split; [congruence|]. split.
  - intros name Hn. by rewrite H2', H2.
  - intros key Hk. by rewrite H3', H3.
Qed.

Lemma backup_reports_elsewhere clock items a :
  same_elsewhere a (backup_reports clock items a).2.
Proof.
  unfold backup_reports. destruct items as [|x items];
    [apply same_elsewhere_refl|].
  cbn [get_state_item].
  destruct (backup_loop _ _ _ _) as [e|saved]; [by repeat split|].
  simpl. split; [done|]. split; simpl.
  - intros name Hn. by rewrite lookup_insert_ne.
  - intros key Hk. rewrite lookup_insert_eq. simpl.
    rewrite lookup_insert_ne by done.
    destruct (default ∅ (state a !! "telemetry") !! "backup"); [done|].
    by rewrite lookup_insert_ne.
Qed.

Lemma resend_elsewhere is_alive fresh clock sched pr :
  same_elsewhere (app pr)
    (app (resend_backuped_reports is_alive fresh clock sched pr).2).
Proof.
  unfold resend_backuped_reports. cbn [get_state_item].
  destruct (_ !! "backup") as [[|r reports]|]; try (by repeat split).
  match goal with |- context [resend_loop ?al ?f ?c ?s ?i ?l ?q] =>
    pose proof (resend_loop_app al f c s i l q) as Ha;
    destruct (resend_loop al f c s i l q) as [[e|] pr'] end; simpl in *.
  - rewrite Ha. by repeat split.
  - rewrite Ha. split; [done|]. split; simpl.
    + intros name Hn. by rewrite lookup_insert_ne.
    + intros key Hk. rewrite lookup_insert_eq. simpl.
      by rewrite lookup_insert_ne.
Qed.

(** X8. Whatever is called in a process and however the workers run,
    the module changes nothing in the app but the "backup" entry of the
    "telemetry" state item: the enable-telemetry setting, every other
    state item and every other key of the "telemetry" item are as they
    were. *)
Theorem only_the_backup_changes cs pr :
  same_elsewhere (app pr) (app (perform_all cs pr)).
Proof.
  unfold perform_all. revert pr.
  induction cs as [|c cs IH]; intros pr; simpl; [apply same_elsewhere_refl|].
  eapply same_elsewhere_trans; [|apply IH].
  destruct c; simpl.
  - rewrite step_app. apply same_elsewhere_refl.
  - rewrite send_app. apply same_elsewhere_refl.
  - apply resend_elsewhere.
  - destruct (_finalize _ _ _ _) as [[[e k] pr']|] eqn:E;
      [|apply same_elsewhere_refl].
    apply finalize_app in E. simpl in E.
    destruct E as [->|(pw & k' & _ & ->)]; [apply same_elsewhere_refl|].
    apply backup_reports_elsewhere.
Qed.

(** ** Reading and writing the parameters *)

Lemma short_names_plain :
  Forall (λ kv : string * string, PARAMS_MAP !! kv.2 = None ∧ kv.1 ≠ kv.2)
         (map_to_list PARAMS_MAP).
Proof. apply (bool_decide_unpack _). by vm_compute. Qed.

Lemma short_name_plain name short :
  PARAMS_MAP !! name = Some short →
  PARAMS_MAP !! short = None ∧ name ≠ short.
Proof.
  intros H%elem_of_map_to_list. pose proof short_names_plain as Hl.
  rewrite Forall_forall in Hl. apply (Hl _ H).
Qed.

(** X9. A parameter written under a name is read back under that name,
    and a parameter written under one of the long names of [PARAMS_MAP]
    is the parameter of the short name: it is read and overwritten under
    either.  Writing under a name leaves the parameters of other keys
    alone.  [del] does not translate names: deleting under a long name
    leaves the parameter in place, deleting under the key removes it. *)
Theorem parameters_read_back name v (params : Item) :
  getitem name (setitem name v params) = Some v ∧
  (∀ short,
     PARAMS_MAP !! name = Some short →
     getitem short (setitem name v params) = Some v ∧
     setitem name v params = setitem short v params ∧
     getitem name (delitem name (setitem name v params)) = Some v ∧
     getitem name (delitem short (setitem name v params)) = None) ∧
  (PARAMS_MAP !! name = None →
   getitem name (delitem name (setitem name v params)) = None) ∧
  (∀ name',
     default name' (PARAMS_MAP !! name') ≠ default name (PARAMS_MAP !! name) →
     getitem name' (setitem name v params) = getitem name' params).
Proof.
  unfold getitem, setitem, delitem. split; [by rewrite lookup_insert_eq|].
  split; [|split].
  - intros short Hs. destruct (short_name_plain _ _ Hs) as [Hp Hne].
    rewrite Hs, Hp. simpl. rewrite lookup_insert_eq.
    split; [done|]. split; [done|]. split.
    + rewrite lookup_delete_ne by done. by rewrite lookup_insert_eq.
    + by rewrite lookup_delete_eq.
  - intros ->. simpl. by rewrite lookup_delete_eq.
  - intros name' Hne. by rewrite lookup_insert_ne.
Qed.

Lemma parameters_read_back_witness :
  getitem "cd" (setitem "screen_name" (VStr "Run") A) = Some (VStr "Run") ∧
  getitem "screen_name" (delitem "screen_name"
                           (setitem "screen_name" (VStr "Run") A))
    = Some (VStr "Run") ∧
  getitem "t" (delitem "t" (setitem "t" (VStr "event") A)) = None ∧
  getitem "t" (setitem "screen_name" (VStr "Run") A) = getitem "t" A.
Proof.
  destruct (parameters_read_back "screen_name" (VStr "Run") A)
    as (_ & H2 & _ & H4).
  destruct (H2 "cd" eq_refl) as (Ha & _ & Hc & _).
  destruct (parameters_read_back "t" (VStr "event") A) as (_ & _ & H3 & _).
  split; [exact Ha|]. split; [exact Hc|]. split; [exact (H3 eq_refl)|].
  apply H4. discriminate.
Defined.

(** ** The screen name *)

Lemma first_arg_found args_ list_ x :
  found (_first_arg_from_list args_ list_) = Some x →
  x ∈ args_ ∧ x ∈ list_.
Proof.
  intros H. assert (_first_arg_from_list args_ list_ = Some x) as H'.
  { destruct (_first_arg_from_list args_ list_) as [[|c s]|]; done. }
  clear H. induction args_ as [|a args_ IH]; simpl in *; [done|].
  case_decide.
  - injection H' as <-. split; [by apply elem_of_cons; left|done].
  - destruct (IH H') as [? ?]. split; [by apply elem_of_cons; right|done].
Qed.

Lemma elem_of_drop_list (n : nat) (x : string) l : x ∈ drop n l → x ∈ l.
Proof. intros H. eapply elem_of_sublist; [exact H|apply sublist_drop]. Qed.

Lemma elem_of_take_list (n : nat) (x : string) l : x ∈ take n l → x ∈ l.
Proof. intros H. eapply elem_of_sublist; [exact H|apply sublist_take]. Qed.

Lemma lib_is_one_word : "lib" ∉ two_word_commands.
Proof. apply (bool_decide_unpack _). by vm_compute. Qed.

Lemma remote_is_one_word : "remote" ∉ two_word_commands.
Proof. apply (bool_decide_unpack _). by vm_compute. Qed.

(** The command path is a base, the first word or the first two,
    followed by the subcommands found among the other words. *)
Lemma cmd_path_ext arg0 rest :
  ∃ ext,
    cmd_path_of (arg0 :: rest) =
      (if decide (arg0 ∈ two_word_commands) then take 2 (arg0 :: rest)
       else [arg0]) ++ ext ∧
    (∀ c, c ∈ ext → c ∈ rest) ∧
    (length ext ≤ 2)%nat ∧
    (ext ≠ [] → arg0 = "lib" ∨ arg0 = "remote") ∧
    (arg0 = "lib" →
     ext = [] ∨ ∃ sub_cmd, sub_cmd ∈ lib_subcmds ∧ ext = [sub_cmd]).
Proof.
  unfold cmd_path_of. cbn [head default from_option id].
  change (take 1 (arg0 :: rest)) with [arg0].
  set (base := if decide (arg0 ∈ two_word_commands)
               then take 2 (arg0 :: rest) else [arg0]).
  assert (∃ ext, base = base ++ ext ∧ (∀ c, c ∈ ext → c ∈ rest) ∧
            (length ext ≤ 2)%nat ∧ (ext ≠ [] → arg0 = "lib" ∨ arg0 = "remote") ∧
            (arg0 = "lib" →
             ext = [] ∨ ∃ sub_cmd, sub_cmd ∈ lib_subcmds ∧ ext = [sub_cmd]))
    as Hnone.
  { exists []. rewrite app_nil_r. repeat split; try done; simpl; try lia.
    - by intros c ?%elem_of_nil.
    - by left. }
  destruct (decide (arg0 = "lib" ∧ (1 < length (arg0 :: rest))%nat))
    as [[-> Hlen]|Hnl].
  - destruct (found _) as [sub_cmd|] eqn:Hf; [|done].
    apply first_arg_found in Hf as [Hr Hs]. simpl in Hr.
    exists [sub_cmd]. repeat split; try done; simpl; try lia.
    + by intros c ->%list_elem_of_singleton.
    + by left.
    + right. by exists sub_cmd.
  - destruct (decide (arg0 = "remote" ∧ (1 < length (arg0 :: rest))%nat))
      as [[-> Hlen]|Hnr]; [|done].
    destruct (found (_first_arg_from_list (drop 1 _) remote_subcmds))
      as [sub_cmd|] eqn:Hf; [|done].
    apply first_arg_found in Hf as [Hr Hs]. simpl in Hr.
    assert (∃ ext, base ++ [sub_cmd] = base ++ ext ∧
              (∀ c, c ∈ ext → c ∈ rest) ∧ (length ext ≤ 2)%nat ∧
              (ext ≠ [] → "remote" = "lib" ∨ "remote" = "remote") ∧
              ("remote" = "lib" →
               ext = [] ∨ ∃ s, s ∈ lib_subcmds ∧ ext = [s])) as Hone.
    { exists [sub_cmd]. repeat split; try done; simpl; try lia.
      - by intros c ->%list_elem_of_singleton.
      - by right. }
    case_decide; [|done].
    destruct (found (_first_arg_from_list (drop 2 _) remote2_subcmds))
      as [sub2|] eqn:Hf2; [|done].
    apply first_arg_found in Hf2 as [Hr2 _].
    apply (elem_of_drop_list 1 sub2 rest) in Hr2.
    exists [sub_cmd; sub2]. rewrite <- app_assoc.
    repeat split; try done; simpl; try lia.
    + intros c [->|Hc]%elem_of_cons; [done|].
      by apply list_elem_of_singleton in Hc as ->.
    + by right.
Qed.

Lemma cmd_path_spec arg0 rest :
  let args := arg0 :: rest in
  let cmd_path := cmd_path_of args in
  head cmd_path = Some arg0 ∧
  (length cmd_path ≤ 3)%nat ∧
  (∀ c, c ∈ cmd_path → c ∈ args) ∧
  (arg0 ∉ two_word_commands → arg0 ≠ "lib" → arg0 ≠ "remote" →
   cmd_path = [arg0]) ∧
  (arg0 = "lib" →
   cmd_path = [arg0] ∨ ∃ sub_cmd, sub_cmd ∈ lib_subcmds ∧ sub_cmd ∈ rest ∧
                                   cmd_path = [arg0; sub_cmd]).
Proof.
  cbv zeta.
  destruct (cmd_path_ext arg0 rest) as (ext & -> & He & Hl & Hne & Hlib).
  split; [by case_decide|]. split; [|split; [|split]].
  - destruct ext as [|x ext]; [rewrite app_nil_r|].
    + case_decide; simpl; [rewrite length_take|]; lia.
    + destruct (Hne ltac:(done)) as [-> | ->].
      * rewrite decide_False by apply lib_is_one_word.
        rewrite length_app. simpl in *. lia.
      * rewrite decide_False by apply remote_is_one_word.
        rewrite length_app. simpl in *. lia.
  - intros c [Hc|Hc]%elem_of_app.
    + case_decide; [by apply elem_of_take_list in Hc|].
      apply list_elem_of_singleton in Hc as ->. apply elem_of_cons. by left.
    + apply elem_of_cons. right. by apply He.
  - intros H1 H2 H3. rewrite decide_False by done.
    destruct ext as [|x ext]; [done|].
    by destruct (Hne ltac:(done)).
  - intros ->. rewrite decide_False by apply lib_is_one_word.
    destruct (Hlib eq_refl) as [->|(sub_cmd & Hs & ->)]; [by left|].
    right. exists sub_cmd. repeat split; try done.
    apply He, list_elem_of_singleton. done.
Qed.

(** X10. The screen name.  Without a command context, or when every
    word of the command line starts with a dash, the parameters are left
    as they are.  Otherwise the parameter "cd" is set to the title-cased
    words of the command path joined by spaces, and the command path
    starts with the command, has at most three words, and consists of
    words of the command line that do not start with a dash, in lower
    case.  For a command other than "lib", "remote" and the six two-word
    commands, the path is the command alone; for "lib" it is the command
    alone or the command and one of the known subcommands. *)
Theorem screen_name_path lower title (params : Item) :
  _prefill_screen_name lower title None params = params ∧
  (∀ ctx_args,
     screen_args lower ctx_args = [] →
     _prefill_screen_name lower title (Some ctx_args) params = params) ∧
  (∀ ctx_args c,
     c ∈ screen_args lower ctx_args →
     ∃ s, s ∈ ctx_args ∧ String.prefix "-" s = false ∧ c = lower s) ∧
  (∀ ctx_args arg0 rest,
     screen_args lower ctx_args = arg0 :: rest →
     let cmd_path := cmd_path_of (arg0 :: rest) in
     _prefill_screen_name lower title (Some ctx_args) params
       = <["cd" := VStr (String.concat " " (title <$> cmd_path))]> params ∧
     head cmd_path = Some arg0 ∧
     (length cmd_path ≤ 3)%nat ∧
     (∀ c, c ∈ cmd_path → c ∈ screen_args lower ctx_args) ∧
     (arg0 ∉ two_word_commands → arg0 ≠ "lib" → arg0 ≠ "remote" →
      cmd_path = [arg0]) ∧
     (arg0 = "lib" →
      cmd_path = [arg0] ∨
      ∃ sub_cmd, sub_cmd ∈ lib_subcmds ∧ sub_cmd ∈ rest ∧
                 cmd_path = [arg0; sub_cmd])).
Proof.
  split; [done|]. split; [|split].
  - intros ctx_args H. unfold _prefill_screen_name. by rewrite H.
  - intros ctx_args c Hc. unfold screen_args in Hc.
    apply list_elem_of_fmap in Hc as (s & -> & Hs).
    apply list_elem_of_filter in Hs as [Hp Hs]. by exists s.
  - intros ctx_args arg0 rest Hargs cmd_path. subst cmd_path.
    pose proof (cmd_path_spec arg0 rest) as (H1 & H2 & H3 & H4 & H5).
    cbv zeta in *. rewrite Hargs.
    split; [|done]. unfold _prefill_screen_name. by rewrite Hargs.
Qed.

Lemma screen_name_path_witness :
  _prefill_screen_name id id (Some ["-v"; "--force"]) A = A ∧
  _prefill_screen_name id id (Some ["lib"; "-g"; "install"; "ArduinoJson"]) A
    = <["cd" := VStr "lib install"]> A ∧
  cmd_path_of ["run"; "uno"] = ["run"].
Proof.
  destruct (screen_name_path id id A) as (_ & H2 & _ & H4).
  split; [apply H2; reflexivity|].
  destruct (H4 ["lib"; "-g"; "install"; "ArduinoJson"] "lib"
              ["install"; "ArduinoJson"] eq_refl) as (Ha & _).
  split; [exact Ha|].
  destruct (H4 ["run"; "uno"] "run" ["uno"] eq_refl) as (_ & _ & _ & _ & Hb & _).
  apply Hb.
  - apply (bool_decide_unpack _). vm_compute. exact I.
  - discriminate.
  - discriminate.
Defined.

(** ** on_event *)






(** ** Edge cases of [resend_backuped_reports] *)

Lemma resend_loop_split is_alive fresh clock sched i pre rest pr :
  Forall (λ r : Item, is_Some (r !! "t")) pre →
  resend_loop is_alive fresh clock sched i (pre ++ rest) pr =
    resend_loop is_alive fresh clock sched (i + length pre) rest
      (resend_loop is_alive fresh clock sched i pre pr).2.
Proof.
  intros H. revert i pr.
  induction H as [|r pre [t Ht] _ IH]; intros i pr; simpl.
  - by rewrite Nat.add_0_r.
  - rewrite Ht, IH. f_equal. lia.
Qed.

(** X12. With nothing saved (no "telemetry" item, no "backup" key, or
    an empty list) [resend_backuped_reports] returns [False] after
    reading the state once: nothing is submitted and nothing written.
    When a saved report has no hit type "t", the reports before it are
    resent, then [KeyError] is raised at that report: the backlog is
    not cleared, the reports after it are not resent, and the state is
    read but not written. *)
Theorem resend_edge_cases is_alive fresh clock sched pr :
  (backup (app pr) = [] →
   resend_backuped_reports is_alive fresh clock sched pr
     = (inr (Some false),
        with_app (mkApp (state (app pr)) (enable_telemetry (app pr))
                        (calls (app pr) ++ [GetStateItem "telemetry"])) pr)) ∧
  (∀ pre r post,
     backup (app pr) = pre ++ r :: post →
     Forall (λ r : Item, is_Some (r !! "t")) pre →
     r !! "t" = None →
     let a1 := mkApp (state (app pr)) (enable_telemetry (app pr))
                     (calls (app pr) ++ [GetStateItem "telemetry"]) in
     let pr' := (resend_loop is_alive fresh clock sched 0 pre
                   (with_app a1 pr)).2 in
     resend_backuped_reports is_alive fresh clock sched pr
       = (inl KeyError, pr') ∧
     app pr' = a1 ∧
     backup (app pr') = pre ++ r :: post).
Proof.
  split.
  - intros Hb. unfold resend_backuped_reports. cbn [get_state_item].
    unfold backup in Hb.
    by destruct (default ∅ (state (app pr) !! "telemetry") !! "backup")
      as [[|y l]|].
  - intros pre r post Hb Hpre Hr a1 pr'.
    assert (app pr' = a1) as Ha by (subst pr'; by rewrite resend_loop_app).
    split; [|split; [done|by rewrite Ha]].
    unfold resend_backuped_reports. cbn [get_state_item]. fold a1.
    destruct (pre ++ r :: post) as [|x l] eqn:E;
      [by destruct pre|].
    rewrite (backup_lookup _ _ _ Hb), <- E.
    rewrite resend_loop_split by done. fold pr'. simpl. by rewrite Hr.
Qed.

Lemma resend_edge_cases_witness :
  resend_backuped_reports running ∅ noon idle (boot (app_with true []))
    = (inr (Some false),
       boot (mkApp (state (app_with true [])) true [GetStateItem "telemetry"]))
  ∧
  ∃ pr',
    resend_backuped_reports running ∅ noon idle
      (boot (app_with true [A; delete "t" B; C])) = (inl KeyError, pr') ∧
    backup (app pr') = [A; delete "t" B; C] ∧
    length (_queue (pusher pr')) = 1%nat.
Proof.
  split.
  - destruct (resend_edge_cases running ∅ noon idle (boot (app_with true [])))
      as [H _].
    apply H. reflexivity.
  - destruct (resend_edge_cases running ∅ noon idle
                (boot (app_with true [A; delete "t" B; C]))) as [_ H].
    destruct (H [A] (delete "t" B) [C] eq_refl) as (Hr & _ & Hb).
    + apply (bool_decide_unpack _). vm_compute. exact I.
    + reflexivity.
    + eexists. split; [exact Hr|]. split; [exact Hb|]. reflexivity.
Defined.

(** ** Nothing in flight is lost *)


